(** * CodeCompanion voice client: the audio pipeline of [src/App.tsx]

    A shallow embedding of the realtime audio pipeline of the client:
    the PCM transport codec, the capture callback, the playback
    scheduler with its interruption handling, resource release, and the
    connect / disconnect / mute commands.

    Conventions used throughout.
    - A React state cell or a [useRef] cell is a field of the record
      [App]; a handler is a computation over [App] that may read clock
      values and environment outcomes handed to it as arguments.
    - Calls into the browser and the SDK that leave no trace in [App]
      (stopping a node, closing a context, writing to the console) are
      collected in a list of [HostCall]s, oldest first.
    - A JavaScript exception is an explicit completion [Threw]; the
      state reached before the throw is kept, as in JavaScript.
    - Times on the output clock are counted in sample frames of the
      24 kHz output context: [AudioContext.currentTime] and
      [AudioBuffer.duration] are both whole numbers of frames divided
      by the sample rate, so the unit loses nothing. *)

From Stdlib Require Import List ZArith QArith Qminmax Qabs Qround.
From Stdlib Require Import String Ascii Bool Lia Floats Uint63.
Import ListNotations.

Set Implicit Arguments.

(** ** The PCM transport codec ([src/utils/audioUtils.ts]) *)

Module AudioUtils.

Local Open Scope Z_scope.

(** The object handed to [session.sendRealtimeInput] as [media]. *)
Record Blob : Type := mkBlob { data : string; mimeType : string }.

(** Modelled from the spec: [src/utils/audioUtils.ts] is not part of
    the sources at hand.  The base64 step is the standard alphabet of
    RFC 4648 with [=] padding, three bytes to four characters. *)
Definition alphabet : list ascii :=
  list_ascii_of_string
    "ABCDEFGHIJKLMNOPQRSTUVWXYZabcdefghijklmnopqrstuvwxyz0123456789+/".

Definition pad : ascii := "="%char.

Definition b64_char (n : Z) : ascii := nth (Z.to_nat n) alphabet pad.

Fixpoint index_from (c : ascii) (l : list ascii) (i : Z) : option Z :=
  match l with
  | [] => None
  | a :: l' => if Ascii.eqb a c then Some i else index_from c l' (i + 1)
  end.

Definition b64_index (c : ascii) : option Z := index_from c alphabet 0.

(** Modelled from the spec: the base64 step of [encodeFrame]. *)
Fixpoint b64_encode (bs : list Z) : list ascii :=
  match bs with
  | [] => []
  | [a] => [b64_char (a / 4); b64_char ((a mod 4) * 16); pad; pad]
  | [a; b] =>
      [b64_char (a / 4); b64_char ((a mod 4) * 16 + b / 16);
       b64_char ((b mod 16) * 4); pad]
  | a :: b :: c :: rest =>
      b64_char (a / 4) :: b64_char ((a mod 4) * 16 + b / 16)
        :: b64_char ((b mod 16) * 4 + c / 64) :: b64_char (c mod 64)
        :: b64_encode rest
  end.

(** Modelled from the spec: the binary decode of [decodeFrame]; [None]
    is the spec's [FormatError] on malformed base64. *)
Fixpoint b64_decode (cs : list ascii) : option (list Z) :=
  match cs with
  | [] => Some []
  | c1 :: c2 :: c3 :: c4 :: rest =>
      match b64_index c1, b64_index c2 with
      | Some i1, Some i2 =>
          let b1 := i1 * 4 + i2 / 16 in
          if Ascii.eqb c3 pad then
            match rest with
            | [] => if Ascii.eqb c4 pad then Some [b1] else None
            | _ :: _ => None
            end
          else
            match b64_index c3 with
            | Some i3 =>
                let b2 := (i2 mod 16) * 16 + i3 / 4 in
                if Ascii.eqb c4 pad then
                  match rest with
                  | [] => Some [b1; b2]
                  | _ :: _ => None
                  end
                else
                  match b64_index c4 with
                  | Some i4 =>
                      let b3 := (i3 mod 4) * 64 + i4 in
                      match b64_decode rest with
                      | Some bs => Some (b1 :: b2 :: b3 :: bs)
                      | None => None
                      end
                  | None => None
                  end
            | None => None
            end
      | _, _ => None
      end
  | _ => None
  end.

(** Modelled from the spec: "clamps each sample to [-1,1]". *)
Definition clamp (x : Q) : Q := Qmax (-1) (Qmin 1 x).

(** Storing a number in an [Int16Array] drops its fraction (rounds
    toward zero). *)
Definition truncate (x : Q) : Z := Z.quot (Qnum x) (Zpos (Qden x)).

(** Modelled from the spec: "scales to a 16-bit signed integer range".
    The factor is the largest one that keeps a clamped sample inside
    [-32768, 32767]. *)
Definition int16_scale : Z := 32767.

Definition to_int16 (x : Q) : Z :=
  truncate (clamp x * inject_Z int16_scale)%Q.

(** Modelled from the spec: "packs little-endian": low byte first, the
    value in two's complement. *)
Definition pack16 (v : Z) : list Z :=
  let u := v mod 65536 in [u mod 256; u / 256].

Definition unpack16 (lo hi : Z) : Z :=
  let u := lo + 256 * hi in
  if 32768 <=? u then u - 65536 else u.

(** Modelled from the spec: [decodeAudioData] "reinterprets raw bytes as
    16-bit samples"; an odd byte count has no such reading. *)
Fixpoint int16s_of_bytes (bs : list Z) : option (list Z) :=
  match bs with
  | [] => Some []
  | lo :: hi :: rest =>
      match int16s_of_bytes rest with
      | Some vs => Some (unpack16 lo hi :: vs)
      | None => None
      end
  | [_] => None
  end.

(** The values a byte and a 16-bit signed sample can take. *)
Definition is_byte (b : Z) : Prop := 0 <= b < 256.

Definition is_int16 (v : Z) : Prop := -32768 <= v <= 32767.

Definition pcm_bytes (samples : list Q) : list Z :=
  flat_map pack16 (map to_int16 samples).

(** Modelled from the spec: [encodeFrame(samples) -> Blob], the
    [createBlob] of the source. *)
Definition encodeFrame (samples : list Q) : Blob :=
  {| data := string_of_list_ascii (b64_encode (pcm_bytes samples));
     mimeType := "audio/pcm;rate=16000" |}.

(** Modelled from the spec: [decodeFrame], the [decode] of the source:
    "inverse of the base64 step only". *)
Definition decodeFrame (s : string) : option (list Z) :=
  b64_decode (list_ascii_of_string s).

End AudioUtils.

Import AudioUtils.

(** ** Host objects and application state ([src/types.ts], [src/App.tsx]) *)

Inductive ConnectionState : Type :=
  DISCONNECTED | CONNECTING | CONNECTED | ERROR.

Inductive Sender : Type := user | ai | system.

(** [LogMessage] without its [id] and [timestamp], which come from
    [Math.random] and the wall clock and are read by the display only. *)
Record LogMessage : Type := mkLog { sender : Sender; text : string }.

Record JsError : Type := mkError { message : string }.

(** How a statement completes: normally with a value, or abruptly with
    a thrown exception. *)
Inductive Completion (A : Type) : Type :=
| Normal (a : A)
| Threw (e : JsError).

Arguments Normal {A} a.
Arguments Threw {A} e.

Record AudioContext : Type := mkContext { sampleRate : Z }.

Inductive ReadyState : Type := live | ended.

Record MediaStreamTrack : Type :=
  mkTrack { enabled : bool; readyState : ReadyState }.

(** The stream asked for is audio only, so [getTracks] and
    [getAudioTracks] return the same tracks. *)
Record MediaStream : Type := mkStream { getAudioTracks : list MediaStreamTrack }.

Record ScriptProcessorNode : Type := mkProcessor { bufferSize : Z }.

(** The node [createMediaStreamSource] returns.  Its [mediaStream] is
    a reference to the stream object held in [mediaStreamRef], not a
    copy of it; no handler reads it, and it is left out so that the
    tracks exist once. *)
Record MediaStreamAudioSourceNode : Type :=
  mkStreamSource { source_context : AudioContext }.

(** A decoded buffer at the rate of the output context. *)
Record AudioBuffer : Type := mkBuffer { channelData : list float }.

(** [AudioBuffer.duration], in frames of the output context. *)
Definition duration (b : AudioBuffer) : Z :=
  Z.of_nat (List.length (channelData b)).

(** A playback unit.  [node_id] is the identity of the JavaScript
    object; [started] holds the argument of [start] once it was called. *)
Record AudioBufferSourceNode : Type :=
  mkSource { node_id : nat; buffer : AudioBuffer; started : option Z }.

Record Session : Type := mkSession { session_id : nat }.

Inductive Settled (A : Type) : Type :=
| Fulfilled (a : A)
| Rejected (e : JsError).

Arguments Fulfilled {A} a.
Arguments Rejected {A} e.

(** The promise returned by [ai.live.connect], described by what it
    settles to.  A promise that stays pending for ever is not modelled. *)
Record SessionPromise : Type := mkPromise { settles_to : Settled Session }.

Inductive NodeRef : Type :=
| StreamSourceNode
| ProcessorNode
| BufferSourceNode (id : nat)
| AnalyserNode (id : nat)
| Destination (c : AudioContext).

(** Calls that act on the browser or on the SDK. *)
Inductive HostCall : Type :=
| console_error (msg : string)
| AudioNode_connect (from to : NodeRef)
| AudioNode_disconnect (node : NodeRef)
| Processor_set_onaudioprocess (installed : bool)
| BufferSource_start (id : nat) (when : Z)
| BufferSource_stop (id : nat)
| Track_stop (index : nat)
| AudioContext_close (c : AudioContext)
| requestAnimationFrame_updateAiVol (id : nat)
| Session_sendRealtimeInput (s : Session) (media : Blob)
| Session_close (s : Session).

Definition is_session_call (c : HostCall) : bool :=
  match c with
  | Session_sendRealtimeInput _ _ | Session_close _ => true
  | _ => false
  end.

(** The [useState] cells and the [useRef] cells of the component. *)
Record App : Type := mkApp {
  connectionState : ConnectionState;
  logs : list LogMessage;
  isMicOn : bool;
  volume : float;
  aiVolume : float;
  inputAudioContextRef : option AudioContext;
  outputAudioContextRef : option AudioContext;
  mediaStreamRef : option MediaStream;
  processorRef : option ScriptProcessorNode;
  sourceNodeRef : option MediaStreamAudioSourceNode;
  sessionPromiseRef : option SessionPromise;
  nextStartTimeRef : Z;
  audioSourcesRef : list AudioBufferSourceNode
}.

Definition initial : App :=
  {| connectionState := DISCONNECTED; logs := []; isMicOn := true;
     volume := 0%float; aiVolume := 0%float;
     inputAudioContextRef := None; outputAudioContextRef := None;
     mediaStreamRef := None; processorRef := None; sourceNodeRef := None;
     sessionPromiseRef := None; nextStartTimeRef := 0%Z;
     audioSourcesRef := [] |}.

Definition setConnectionState (v : ConnectionState) (s : App) : App :=
  mkApp v (logs s) (isMicOn s) (volume s) (aiVolume s)
    (inputAudioContextRef s) (outputAudioContextRef s) (mediaStreamRef s)
    (processorRef s) (sourceNodeRef s) (sessionPromiseRef s)
    (nextStartTimeRef s) (audioSourcesRef s).

Definition setLogs (v : list LogMessage) (s : App) : App :=
  mkApp (connectionState s) v (isMicOn s) (volume s) (aiVolume s)
    (inputAudioContextRef s) (outputAudioContextRef s) (mediaStreamRef s)
    (processorRef s) (sourceNodeRef s) (sessionPromiseRef s)
    (nextStartTimeRef s) (audioSourcesRef s).

Definition setIsMicOn (v : bool) (s : App) : App :=
  mkApp (connectionState s) (logs s) v (volume s) (aiVolume s)
    (inputAudioContextRef s) (outputAudioContextRef s) (mediaStreamRef s)
    (processorRef s) (sourceNodeRef s) (sessionPromiseRef s)
    (nextStartTimeRef s) (audioSourcesRef s).

Definition setVolume (v : float) (s : App) : App :=
  mkApp (connectionState s) (logs s) (isMicOn s) v (aiVolume s)
    (inputAudioContextRef s) (outputAudioContextRef s) (mediaStreamRef s)
    (processorRef s) (sourceNodeRef s) (sessionPromiseRef s)
    (nextStartTimeRef s) (audioSourcesRef s).

Definition setAiVolume (v : float) (s : App) : App :=
  mkApp (connectionState s) (logs s) (isMicOn s) (volume s) v
    (inputAudioContextRef s) (outputAudioContextRef s) (mediaStreamRef s)
    (processorRef s) (sourceNodeRef s) (sessionPromiseRef s)
    (nextStartTimeRef s) (audioSourcesRef s).

Definition set_inputAudioContextRef (v : option AudioContext) (s : App) : App :=
  mkApp (connectionState s) (logs s) (isMicOn s) (volume s) (aiVolume s)
    v (outputAudioContextRef s) (mediaStreamRef s)
    (processorRef s) (sourceNodeRef s) (sessionPromiseRef s)
    (nextStartTimeRef s) (audioSourcesRef s).

Definition set_outputAudioContextRef (v : option AudioContext) (s : App) : App :=
  mkApp (connectionState s) (logs s) (isMicOn s) (volume s) (aiVolume s)
    (inputAudioContextRef s) v (mediaStreamRef s)
    (processorRef s) (sourceNodeRef s) (sessionPromiseRef s)
    (nextStartTimeRef s) (audioSourcesRef s).

Definition set_mediaStreamRef (v : option MediaStream) (s : App) : App :=
  mkApp (connectionState s) (logs s) (isMicOn s) (volume s) (aiVolume s)
    (inputAudioContextRef s) (outputAudioContextRef s) v
    (processorRef s) (sourceNodeRef s) (sessionPromiseRef s)
    (nextStartTimeRef s) (audioSourcesRef s).

Definition set_processorRef (v : option ScriptProcessorNode) (s : App) : App :=
  mkApp (connectionState s) (logs s) (isMicOn s) (volume s) (aiVolume s)
    (inputAudioContextRef s) (outputAudioContextRef s) (mediaStreamRef s)
    v (sourceNodeRef s) (sessionPromiseRef s)
    (nextStartTimeRef s) (audioSourcesRef s).

Definition set_sourceNodeRef (v : option MediaStreamAudioSourceNode) (s : App) : App :=
  mkApp (connectionState s) (logs s) (isMicOn s) (volume s) (aiVolume s)
    (inputAudioContextRef s) (outputAudioContextRef s) (mediaStreamRef s)
    (processorRef s) v (sessionPromiseRef s)
    (nextStartTimeRef s) (audioSourcesRef s).

Definition set_sessionPromiseRef (v : option SessionPromise) (s : App) : App :=
  mkApp (connectionState s) (logs s) (isMicOn s) (volume s) (aiVolume s)
    (inputAudioContextRef s) (outputAudioContextRef s) (mediaStreamRef s)
    (processorRef s) (sourceNodeRef s) v
    (nextStartTimeRef s) (audioSourcesRef s).

Definition set_nextStartTimeRef (v : Z) (s : App) : App :=
  mkApp (connectionState s) (logs s) (isMicOn s) (volume s) (aiVolume s)
    (inputAudioContextRef s) (outputAudioContextRef s) (mediaStreamRef s)
    (processorRef s) (sourceNodeRef s) (sessionPromiseRef s)
    v (audioSourcesRef s).

Definition set_audioSourcesRef (v : list AudioBufferSourceNode) (s : App) : App :=
  mkApp (connectionState s) (logs s) (isMicOn s) (volume s) (aiVolume s)
    (inputAudioContextRef s) (outputAudioContextRef s) (mediaStreamRef s)
    (processorRef s) (sourceNodeRef s) (sessionPromiseRef s)
    (nextStartTimeRef s) v.

(** ** Handlers as computations over [App] *)

(** What running a piece of handler code produced: the host calls it
    made, the state it left, and how it completed. *)
Record Outcome (A : Type) : Type :=
  mkOutcome { calls : list HostCall; final : App; completion : Completion A }.

Definition M (A : Type) : Type := App -> Outcome A.

Definition ret {A} (a : A) : M A :=
  fun s => mkOutcome [] s (Normal a).

Definition throw {A} (e : JsError) : M A :=
  fun s => mkOutcome [] s (Threw e).

Definition bind {A B} (m : M A) (k : A -> M B) : M B :=
  fun s =>
    let o := m s in
    match completion o with
    | Normal a =>
        let o' := k a (final o) in
        mkOutcome (calls o ++ calls o') (final o') (completion o')
    | Threw e => mkOutcome (calls o) (final o) (Threw e)
    end.

(** [try { m } catch (e) { h e }]. *)
Definition try_catch {A} (m : M A) (h : JsError -> M A) : M A :=
  fun s =>
    let o := m s in
    match completion o with
    | Normal a => o
    | Threw e =>
        let o' := h e (final o) in
        mkOutcome (calls o ++ calls o') (final o') (completion o')
    end.

Definition gets {A} (f : App -> A) : M A :=
  fun s => mkOutcome [] s (Normal (f s)).

Definition modify (f : App -> App) : M unit :=
  fun s => mkOutcome [] (f s) (Normal tt).

Definition host (c : HostCall) : M unit :=
  fun s => mkOutcome [c] s (Normal tt).

(** An outcome that comes after earlier host calls. *)
Definition after_calls {A} (c : list HostCall) (o : Outcome A) : Outcome A :=
  mkOutcome (c ++ calls o) (final o) (completion o).

(** A fallible call into the environment whose outcome is given. *)
Definition settle {A} (r : Completion A) : M A :=
  match r with
  | Normal a => ret a
  | Threw e => throw e
  end.

Declare Scope handler_scope.
Delimit Scope handler_scope with handler.
Notation "x <- m ;; k" := (bind m (fun x => k))
  (at level 61, m at next level, right associativity) : handler_scope.
Notation "m ;; k" := (bind m (fun _ => k))
  (at level 61, right associativity) : handler_scope.

Local Open Scope handler_scope.
Local Open Scope string_scope.

(** [Set.prototype.forEach] and [Array.prototype.forEach], in order. *)
Fixpoint forEach {A} (f : A -> M unit) (l : list A) : M unit :=
  match l with
  | [] => ret tt
  | a :: l' => f a ;; forEach f l'
  end.

(** [forEach] with the position of each element. *)
Fixpoint forEach_from {A} (i : nat) (f : nat -> A -> M unit) (l : list A) : M unit :=
  match l with
  | [] => ret tt
  | a :: l' => f i a ;; forEach_from (S i) f l'
  end.

(** [await p]. *)
Definition await (p : SessionPromise) : M Session :=
  match settles_to p with
  | Fulfilled session => ret session
  | Rejected e => throw e
  end.

(** [p.then(cb)]: the callback runs once the promise is fulfilled; a
    rejection is not handled and nothing is thrown at the caller. *)
Definition then_ (p : SessionPromise) (cb : Session -> M unit) : M unit :=
  match settles_to p with
  | Fulfilled session => try_catch (cb session) (fun _ => ret tt)
  | Rejected _ => ret tt
  end.

(** [Set.prototype.add] and [Set.prototype.delete] on the set of
    playback units, kept in insertion order; membership is by object
    identity. *)
Definition same_node (a b : AudioBufferSourceNode) : bool :=
  Nat.eqb (node_id a) (node_id b).

Definition Set_add (x : AudioBufferSourceNode) (l : list AudioBufferSourceNode)
  : list AudioBufferSourceNode :=
  if existsb (same_node x) l then l else l ++ [x].

Definition Set_delete (id : nat) (l : list AudioBufferSourceNode)
  : list AudioBufferSourceNode :=
  filter (fun y => negb (Nat.eqb (node_id y) id)) l.

(** [AudioScheduledSourceNode.stop]: an [InvalidStateError] unless
    [start] was called before. *)
Definition source_stop (source : AudioBufferSourceNode) : M unit :=
  match started source with
  | Some _ => host (BufferSource_stop (node_id source))
  | None => throw (mkError "InvalidStateError")
  end.

Definition addLog (text : string) (sender : Sender) : M unit :=
  modify (fun s => setLogs (logs s ++ [mkLog sender text]) s).

(** [cleanupAudio], App.tsx lines 50-85. *)
Definition cleanupAudio : M unit :=
  sources <- gets audioSourcesRef ;;
  forEach (fun source => try_catch (source_stop source) (fun _ => ret tt))
    sources ;;
  modify (set_audioSourcesRef []) ;;
  processor <- gets processorRef ;;
  match processor with
  | Some _ =>
      host (AudioNode_disconnect ProcessorNode) ;;
      host (Processor_set_onaudioprocess false) ;;
      modify (set_processorRef None)
  | None => ret tt
  end ;;
  sourceNode <- gets sourceNodeRef ;;
  match sourceNode with
  | Some _ =>
      host (AudioNode_disconnect StreamSourceNode) ;;
      modify (set_sourceNodeRef None)
  | None => ret tt
  end ;;
  stream <- gets mediaStreamRef ;;
  match stream with
  | Some ms =>
      forEach_from 0 (fun i _ => host (Track_stop i)) (getAudioTracks ms) ;;
      modify (set_mediaStreamRef None)
  | None => ret tt
  end ;;
  inputCtx <- gets inputAudioContextRef ;;
  match inputCtx with
  | Some c =>
      host (AudioContext_close c) ;;
      modify (set_inputAudioContextRef None)
  | None => ret tt
  end ;;
  outputCtx <- gets outputAudioContextRef ;;
  match outputCtx with
  | Some c =>
      host (AudioContext_close c) ;;
      modify (set_outputAudioContextRef None)
  | None => ret tt
  end ;;
  modify (setVolume 0%float) ;;
  modify (setAiVolume 0%float).

(** Numbers that cross from integers to JavaScript numbers. *)
Definition float_of_Z (z : Z) : float :=
  if (z <? 0)%Z then (- PrimFloat.of_uint63 (Uint63.of_Z (- z)))%float
  else PrimFloat.of_uint63 (Uint63.of_Z z).

Definition float_of_nat (n : nat) : float := float_of_Z (Z.of_nat n).

(** The three functions [App.tsx] imports from [./utils/audioUtils].
    The handlers below are written against this interface, so what is
    proved of them holds for any implementation of it. *)
Class AudioUtilsImports : Type := {
  decode : string -> Completion (list Z);
  decodeAudioData : list Z -> AudioContext -> Z -> Z -> Completion AudioBuffer;
  createBlob : list float -> Blob
}.

(** What the callbacks of one session close over: the constants
    [inputCtx] and [outputCtx] of [connectToGemini], and the
    [connectionState] of the render that created the handler.  The
    constant [stream] is closed over too; it is the object held in
    [mediaStreamRef] and is only handed to [createMediaStreamSource]. *)
Record SessionScope : Type := mkScope {
  inputCtx : AudioContext;
  outputCtx : AudioContext;
  rendered_connectionState : ConnectionState
}.

(** The fields of a [LiveServerMessage] the handler reads:
    [serverContent?.modelTurn?.parts?.[0]?.inlineData?.data],
    [serverContent?.turnComplete] and [serverContent?.interrupted]. *)
Record LiveServerMessage : Type := mkMessage {
  inlineData_data : option string;
  turnComplete : bool;
  interrupted : bool
}.

(** What the host hands to [onmessage] for one message: the two
    readings of [outputCtx.currentTime] (on arrival and in the
    interruption branch), the identity of the node [createBufferSource]
    returns, and the bytes [getByteFrequencyData] writes. *)
Record MessageEnv : Type := mkMessageEnv {
  currentTime_on_arrival : Z;
  currentTime_on_interrupt : Z;
  new_source_id : nat;
  frequencyData : list Z
}.

(** The outcome of each fallible step of [connectToGemini]. *)
Record ConnectEnv : Type := mkConnectEnv {
  new_inputContext : Completion AudioContext;
  new_outputContext : Completion AudioContext;
  getUserMedia : Completion MediaStream;
  new_GoogleGenAI : Completion unit;
  live_connect : Completion SessionPromise
}.

Definition is_CONNECTED (c : ConnectionState) : bool :=
  match c with CONNECTED => true | _ => false end.

(** An optional string used as a condition: [undefined] and the empty
    string are falsy. *)
Definition truthy (o : option string) : option string :=
  match o with
  | Some s => if String.eqb s EmptyString then None else Some s
  | None => None
  end.

Definition Set_has (id : nat) (l : list AudioBufferSourceNode) : bool :=
  existsb (fun y => Nat.eqb (node_id y) id) l.

Section Handlers.

Context {utils : AudioUtilsImports}.

(** The volume meter of [onaudioprocess], App.tsx lines 140-143. *)
Definition input_volume (inputData : list float) : float :=
  let sum := fold_left (fun sum x => sum + x * x)%float inputData 0%float in
  let rms := PrimFloat.sqrt (sum / float_of_nat (List.length inputData)) in
  (rms * 5)%float.

(** [processor.onaudioprocess], App.tsx lines 136-152. *)
Definition onaudioprocess (inputData : list float) : M unit :=
  modify (setVolume (input_volume inputData)) ;;
  let pcmBlob := createBlob inputData in
  promise <- gets sessionPromiseRef ;;
  match promise with
  | Some p =>
      then_ p (fun session => host (Session_sendRealtimeInput session pcmBlob))
  | None => ret tt
  end.

(** [onopen], App.tsx lines 123-156. *)
Definition onopen (scope : SessionScope) (currentTime : Z) : M unit :=
  addLog "Connected! Start speaking to CodeCompanion." system ;;
  modify (setConnectionState CONNECTED) ;;
  modify (set_nextStartTimeRef currentTime) ;;
  modify (set_sourceNodeRef (Some (mkStreamSource (inputCtx scope)))) ;;
  modify (set_processorRef (Some (mkProcessor 4096))) ;;
  host (Processor_set_onaudioprocess true) ;;
  host (AudioNode_connect StreamSourceNode ProcessorNode) ;;
  host (AudioNode_connect ProcessorNode (Destination (inputCtx scope))).

(** The level [updateAiVol] publishes, App.tsx lines 187-190. *)
Definition output_volume (dataArray : list Z) : float :=
  let sum := fold_left (fun sum v => sum + float_of_Z v)%float dataArray 0%float in
  let avg := (sum / float_of_nat (List.length dataArray))%float in
  (avg / 128)%float.

(** [updateAiVol], App.tsx lines 185-194. *)
Definition updateAiVol (scope : SessionScope) (id : nat) (dataArray : list Z)
  : M unit :=
  modify (setAiVolume (output_volume dataArray)) ;;
  if is_CONNECTED (rendered_connectionState scope)
  then host (requestAnimationFrame_updateAiVol id)
  else ret tt.

(** The [catch] of the audio branch, App.tsx lines 206-208. *)
Definition audio_catch (err : JsError) : M unit :=
  host (console_error ("Error decoding audio: " ++ message err)).

(** The [try] of the audio branch up to its [await], App.tsx lines
    162-169: the cursor is raised to the clock and [decode] is called.
    The handler then yields until [decodeAudioData] has settled. *)
Definition audio_before_await (base64Audio : string) (env : MessageEnv)
  : M (list Z) :=
  modify (fun s =>
    set_nextStartTimeRef
      (Z.max (nextStartTimeRef s) (currentTime_on_arrival env)) s) ;;
  settle (decode base64Audio).

(** The [try] of the audio branch from its [await] on, App.tsx lines
    168-204, run when [decodeAudioData] has settled: the unit starts at
    the value the cursor has then. *)
Definition audio_after_await (scope : SessionScope) (env : MessageEnv)
    (bytes : list Z) : M unit :=
  audioBuffer <- settle (decodeAudioData bytes (outputCtx scope) 24000 1) ;;
  let id := new_source_id env in
  host (AudioNode_connect (BufferSourceNode id) (Destination (outputCtx scope))) ;;
  host (AudioNode_connect (BufferSourceNode id) (AnalyserNode id)) ;;
  updateAiVol scope id (frequencyData env) ;;
  when <- gets nextStartTimeRef ;;
  host (BufferSource_start id when) ;;
  modify (fun s =>
    set_nextStartTimeRef (nextStartTimeRef s + duration audioBuffer) s) ;;
  modify (fun s =>
    set_audioSourcesRef
      (Set_add (mkSource id audioBuffer (Some when)) (audioSourcesRef s)) s).

(** The interruption branch of [onmessage], App.tsx lines 219-224. *)
Definition interrupt (env : MessageEnv) : M unit :=
  addLog "User interrupted AI." system ;;
  sources <- gets audioSourcesRef ;;
  forEach source_stop sources ;;
  modify (set_audioSourcesRef []) ;;
  modify (set_nextStartTimeRef (currentTime_on_interrupt env)).

(** What follows the audio branch, App.tsx lines 211-224. *)
Definition after_audio (msg : LiveServerMessage) (env : MessageEnv) : M unit :=
  (if turnComplete msg then ret tt else ret tt) ;;
  if interrupted msg then interrupt env else ret tt.

(** [onmessage] from the arrival of a message to the point where the
    handler first yields.  [Some bytes]: it is suspended at the [await]
    of App.tsx line 168, with [bytes] handed to [decodeAudioData].
    [None]: it ran to its end (no audio, or [decode] threw). *)
Definition onmessage_arrive (scope : SessionScope) (msg : LiveServerMessage)
    (env : MessageEnv) : M (option (list Z)) :=
  match truthy (inlineData_data msg) with
  | Some base64Audio =>
      suspended <-
        try_catch
          (bytes <- audio_before_await base64Audio env ;; ret (Some bytes))
          (fun err => audio_catch err ;; ret None) ;;
      match suspended with
      | Some bytes => ret (Some bytes)
      | None => after_audio msg env ;; ret None
      end
  | None => after_audio msg env ;; ret None
  end.

(** [onmessage] from the moment [decodeAudioData] has settled to the
    end of the handler.  Other handlers may have run since the
    arrival. *)
Definition onmessage_resume (scope : SessionScope) (msg : LiveServerMessage)
    (env : MessageEnv) (bytes : list Z) : M unit :=
  try_catch (audio_after_await scope env bytes) audio_catch ;;
  after_audio msg env.

(** [onmessage], App.tsx lines 157-225, when no other handler runs
    while it is suspended. *)
Definition onmessage (scope : SessionScope) (msg : LiveServerMessage)
    (env : MessageEnv) : M unit :=
  suspended <- onmessage_arrive scope msg env ;;
  match suspended with
  | Some bytes => onmessage_resume scope msg env bytes
  | None => ret tt
  end.

(** The ['ended'] listener of a playback unit, App.tsx lines 197-200. *)
Definition onended (id : nat) : M unit :=
  modify (fun s => set_audioSourcesRef (Set_delete id (audioSourcesRef s)) s) ;;
  modify (setAiVolume 0%float).

(** [onclose], App.tsx lines 226-230. *)
Definition onclose : M unit :=
  addLog "Session closed." system ;;
  modify (setConnectionState DISCONNECTED) ;;
  cleanupAudio.

(** [onerror], App.tsx lines 231-236. *)
Definition onerror (err : JsError) : M unit :=
  host (console_error (message err)) ;;
  addLog ("Error: " ++
          (if String.eqb (message err) EmptyString then "Unknown error" else message err))
    system ;;
  modify (setConnectionState ERROR) ;;
  cleanupAudio.

(** The text of the entry the [catch] of [connectToGemini] appends. *)
Definition connect_failure_entry (error : JsError) : LogMessage :=
  mkLog system ("Failed to connect: " ++ message error).

(** [connectToGemini], App.tsx lines 88-248.  The callbacks it hands to
    [ai.live.connect] are the handlers above. *)
Definition connectToGemini (env : ConnectEnv) : M unit :=
  try_catch
    (modify (setConnectionState CONNECTING) ;;
     addLog "Initializing audio contexts..." system ;;
     inputCtx <- settle (new_inputContext env) ;;
     modify (set_inputAudioContextRef (Some inputCtx)) ;;
     outputCtx <- settle (new_outputContext env) ;;
     modify (set_outputAudioContextRef (Some outputCtx)) ;;
     addLog "Requesting microphone access..." system ;;
     stream <- settle (getUserMedia env) ;;
     modify (set_mediaStreamRef (Some stream)) ;;
     settle (new_GoogleGenAI env) ;;
     addLog "Connecting to Gemini Live API..." system ;;
     sessionPromise <- settle (live_connect env) ;;
     modify (set_sessionPromiseRef (Some sessionPromise)))
    (fun error =>
       host (console_error (message error)) ;;
       addLog ("Failed to connect: " ++ message error) system ;;
       modify (setConnectionState ERROR) ;;
       cleanupAudio).

(** [handleDisconnect], App.tsx lines 250-262. *)
Definition handleDisconnect : M unit :=
  promise <- gets sessionPromiseRef ;;
  match promise with
  | Some p =>
      addLog "Disconnecting..." system ;;
      _ <- await p ;;
      cleanupAudio ;;
      modify (setConnectionState DISCONNECTED) ;;
      modify (set_sessionPromiseRef None)
  | None => ret tt
  end.

(** [toggleMic], App.tsx lines 264-273. *)
Definition toggleMic : M unit :=
  current <- gets mediaStreamRef ;;
  match current with
  | Some ms =>
      match getAudioTracks ms with
      | audioTrack :: others =>
          let flipped := mkTrack (negb (enabled audioTrack)) (readyState audioTrack) in
          modify (set_mediaStreamRef (Some (mkStream (flipped :: others)))) ;;
          modify (setIsMicOn (enabled flipped)) ;;
          addLog (if enabled flipped then "Microphone unmuted."
                  else "Microphone muted.") system
      | [] => ret tt
      end
  | None => ret tt
  end.

(** What can happen to the component.  A message is handled either in
    one piece ([Session_onmessage]) or in its two halves, with other
    events between its arrival and its resumption. *)
Inductive Event : Type :=
| Click_connect (env : ConnectEnv)
| Click_disconnect
| Click_toggleMic
| Session_onopen (scope : SessionScope) (currentTime : Z)
| Session_onmessage (scope : SessionScope) (msg : LiveServerMessage) (env : MessageEnv)
| Session_onmessage_arrive (scope : SessionScope) (msg : LiveServerMessage)
    (env : MessageEnv)
| Session_onmessage_resume (scope : SessionScope) (msg : LiveServerMessage)
    (env : MessageEnv) (bytes : list Z)
| Session_onclose
| Session_onerror (err : JsError)
| Processor_onaudioprocess (inputData : list float)
| Source_onended (id : nat).

Definition dispatch (ev : Event) : M unit :=
  match ev with
  | Click_connect env => connectToGemini env
  | Click_disconnect => handleDisconnect
  | Click_toggleMic => toggleMic
  | Session_onopen scope currentTime => onopen scope currentTime
  | Session_onmessage scope msg env => onmessage scope msg env
  | Session_onmessage_arrive scope msg env =>
      _ <- onmessage_arrive scope msg env ;; ret tt
  | Session_onmessage_resume scope msg env bytes =>
      onmessage_resume scope msg env bytes
  | Session_onclose => onclose
  | Session_onerror err => onerror err
  | Processor_onaudioprocess inputData => onaudioprocess inputData
  | Source_onended id => onended id
  end.

(** A run of events from a state.  An exception that leaves a handler
    is reported by the host and the component goes on from the state
    the handler had reached. *)
Fixpoint run (evs : list Event) (s : App) : App :=
  match evs with
  | [] => s
  | ev :: evs' => run evs' (final (dispatch ev s))
  end.

End Handlers.

(** ** The codec as the implementation of the imports *)

(** The exact value of a sample.  An infinite sample is sent to a value
    beyond the clamp on its side, which [clamp] brings to the same
    bound, and NaN to 0, which is what an [Int16Array] stores for it. *)
Definition Q_of_float (x : float) : Q :=
  match Prim2SF x with
  | S754_finite sign m e =>
      let q := (inject_Z (Zpos m) * Qpower 2 e)%Q in
      if sign then (- q)%Q else q
  | S754_infinity sign => if sign then (- (2))%Q else 2%Q
  | S754_zero _ | S754_nan => 0%Q
  end.

(** Modelled from the spec: [decodeAudioData] "rescales to
    floating-point [-1,1]" and returns an empty buffer for empty input. *)
Definition spec_decodeAudioData (raw : list Z) (ctx : AudioContext)
    (rate channels : Z) : Completion AudioBuffer :=
  match int16s_of_bytes raw with
  | Some vs => Normal (mkBuffer (map (fun v => float_of_Z v / 32768)%float vs))
  | None => Threw (mkError "RangeError")
  end.

Definition spec_decode (base64 : string) : Completion (list Z) :=
  match decodeFrame base64 with
  | Some bytes => Normal bytes
  | None => Threw (mkError "FormatError")
  end.

Definition spec_utils : AudioUtilsImports :=
  {| decode := spec_decode;
     decodeAudioData := spec_decodeAudioData;
     createBlob := fun inputData => encodeFrame (map Q_of_float inputData) |}.

(** ** Vocabulary of the statements *)

(** The [stop] calls that go through on a list of playback units. *)
Definition stop_calls (l : list AudioBufferSourceNode) : list HostCall :=
  flat_map
    (fun n => match started n with
              | Some _ => [BufferSource_stop (node_id n)]
              | None => []
              end) l.

(** The [start] calls among host calls: which unit, at what time. *)
Definition start_times (cs : list HostCall) : list (nat * Z) :=
  flat_map
    (fun c => match c with
              | BufferSource_start id when => [(id, when)]
              | _ => []
              end) cs.

Definition console_errors (cs : list HostCall) : list string :=
  flat_map
    (fun c => match c with
              | console_error msg => [msg]
              | _ => []
              end) cs.

(** Every unit of the active set was started: what [onmessage]
    maintains by calling [start] before [add]. *)
Definition all_started (s : App) : Prop :=
  Forall (fun n => started n <> None) (audioSourcesRef s).


(** The first step of [connectToGemini] that throws, if one does. *)
Definition first_failure (env : ConnectEnv) : option JsError :=
  match new_inputContext env with
  | Threw e => Some e
  | Normal _ =>
      match new_outputContext env with
      | Threw e => Some e
      | Normal _ =>
          match getUserMedia env with
          | Threw e => Some e
          | Normal _ =>
              match new_GoogleGenAI env with
              | Threw e => Some e
              | Normal _ =>
                  match live_connect env with
                  | Threw e => Some e
                  | Normal _ => None
                  end
              end
          end
      end
  end.

(** The progress lines [connectToGemini] logs, in order. *)
Definition connect_progress : list LogMessage :=
  [ mkLog system "Initializing audio contexts...";
    mkLog system "Requesting microphone access...";
    mkLog system "Connecting to Gemini Live API..." ].

Fixpoint starts_with (p s : string) : bool :=
  match p, s with
  | EmptyString, _ => true
  | String a p', String b s' => Ascii.eqb a b && starts_with p' s'
  | String _ _, EmptyString => false
  end.

(** An entry that reports a failed connect. *)
Definition describes_failure (l : LogMessage) : bool :=
  starts_with "Failed to connect: " (text l).

(** The payload [base64Audio] does not become a buffer: [decode]
    throws, or [decodeAudioData] rejects. *)
Definition decode_fails {utils : AudioUtilsImports} (scope : SessionScope)
    (base64Audio : string) (e : JsError) : Prop :=
  decode base64Audio = Threw e \/
  exists bytes, decode base64Audio = Normal bytes /\
                decodeAudioData bytes (outputCtx scope) 24000 1 = Threw e.

(** The payload becomes the buffer [audioBuffer]. *)
Definition decodes_to {utils : AudioUtilsImports} (scope : SessionScope)
    (base64Audio : string) (audioBuffer : AudioBuffer) : Prop :=
  exists bytes, decode base64Audio = Normal bytes /\
                decodeAudioData bytes (outputCtx scope) 24000 1 = Normal audioBuffer.

(** The state [cleanupAudio] leaves behind. *)
Definition released (s : App) : App :=
  mkApp (connectionState s) (logs s) (isMicOn s) 0%float 0%float
    None None None None None (sessionPromiseRef s) (nextStartTimeRef s) [].

(** The host calls [cleanupAudio] makes from a state. *)
Definition cleanup_calls (s : App) : list HostCall :=
  stop_calls (audioSourcesRef s) ++
  match processorRef s with
  | Some _ => [AudioNode_disconnect ProcessorNode; Processor_set_onaudioprocess false]
  | None => []
  end ++
  match sourceNodeRef s with
  | Some _ => [AudioNode_disconnect StreamSourceNode]
  | None => []
  end ++
  match mediaStreamRef s with
  | Some ms => map Track_stop (seq 0 (List.length (getAudioTracks ms)))
  | None => []
  end ++
  match inputAudioContextRef s with
  | Some c => [AudioContext_close c]
  | None => []
  end ++
  match outputAudioContextRef s with
  | Some c => [AudioContext_close c]
  | None => []
  end.

(** The host calls of the audio branch of [onmessage] when the payload
    decodes, for the unit [id] started at [when]. *)
Definition play_calls (scope : SessionScope) (id : nat) (when : Z) : list HostCall :=
  [AudioNode_connect (BufferSourceNode id) (Destination (outputCtx scope));
   AudioNode_connect (BufferSourceNode id) (AnalyserNode id)] ++
  (if is_CONNECTED (rendered_connectionState scope)
   then [requestAnimationFrame_updateAiVol id] else []) ++
  [BufferSource_start id when].

(** ** Concrete inputs *)

(** A session of the client: a 16 kHz input context and a 24 kHz
    output context; the handler was created by a render in state
    [DISCONNECTED]. *)
Definition demo_scope : SessionScope :=
  mkScope (mkContext 16000) (mkContext 24000) DISCONNECTED.

(** Two 16-bit samples of silence, in base64. *)
Definition two_silent_samples : string := "AAAAAA==".

Definition audio_message : LiveServerMessage :=
  mkMessage (Some two_silent_samples) false false.

Definition interruption_message : LiveServerMessage :=
  mkMessage None false true.


(** A payload that is not base64. *)
Definition corrupt_message : LiveServerMessage :=
  mkMessage (Some "!!!") false false.

(** What the host hands over at clock [t] for the unit [id]: an
    analyser that reads silence in its sixteen bins. *)
Definition at_clock (t : Z) (id : nat) : MessageEnv :=
  mkMessageEnv t t id (repeat 0%Z 16).

(** A connected client with two units playing. *)
Definition two_playing : App :=
  {| connectionState := CONNECTED; logs := []; isMicOn := true;
     volume := 0%float; aiVolume := 0%float;
     inputAudioContextRef := Some (mkContext 16000);
     outputAudioContextRef := Some (mkContext 24000);
     mediaStreamRef := Some (mkStream [mkTrack true live]);
     processorRef := Some (mkProcessor 4096);
     sourceNodeRef := Some (mkStreamSource (mkContext 16000));
     sessionPromiseRef := Some (mkPromise (Fulfilled (mkSession 1)));
     nextStartTimeRef := 100%Z;
     audioSourcesRef :=
       [ mkSource 1 (mkBuffer [0; 0]%float) (Some 10%Z);
         mkSource 2 (mkBuffer [0; 0]%float) (Some 12%Z) ] |}.

(** The microphone permission is denied. *)
Definition permission_denied : ConnectEnv :=
  {| new_inputContext := Normal (mkContext 16000);
     new_outputContext := Normal (mkContext 24000);
     getUserMedia := Threw (mkError "Permission denied");
     new_GoogleGenAI := Normal tt;
     live_connect := Normal (mkPromise (Fulfilled (mkSession 1))) |}.

(** The value of a step that completed normally. *)
Definition value_of {A} (r : Completion A) : option A :=
  match r with
  | Normal a => Some a
  | Threw _ => None
  end.

(** A list of log entries all written by the system. *)
Definition by_system (suffix : list LogMessage) : Prop :=
  Forall (fun l => sender l = system) suffix.

(** Every step of the connect succeeds. *)
Definition connect_ok : ConnectEnv :=
  {| new_inputContext := Normal (mkContext 16000);
     new_outputContext := Normal (mkContext 24000);
     getUserMedia := Normal (mkStream [mkTrack true live]);
     new_GoogleGenAI := Normal tt;
     live_connect := Normal (mkPromise (Fulfilled (mkSession 1))) |}.

(** Every step of the connect succeeds, and the promise that
    [ai.live.connect] returned is rejected later. *)
Definition session_never_opens : ConnectEnv :=
  {| new_inputContext := Normal (mkContext 16000);
     new_outputContext := Normal (mkContext 24000);
     getUserMedia := Normal (mkStream [mkTrack true live]);
     new_GoogleGenAI := Normal tt;
     live_connect := Normal (mkPromise (Rejected (mkError "socket closed"))) |}.

(** Audio and the interruption flag in one message. *)
Definition interrupting_audio_message : LiveServerMessage :=
  mkMessage (Some two_silent_samples) false true.

(** A client whose session promise was rejected. *)
Definition session_rejected : App :=
  set_sessionPromiseRef (Some (mkPromise (Rejected (mkError "socket closed"))))
    two_playing.

(** * Properties *)

Unset Implicit Arguments.
Local Close Scope string_scope.

(** ** The codec on concrete frames *)

Example encodeFrame_sample :
  data (encodeFrame [0; 1; -1; 1 # 2; 3]%Q) = "AAD/fwGA/z//fw=="%string.
Proof. vm_compute. reflexivity. Qed.

Example decodeFrame_sample :
  option_map int16s_of_bytes (decodeFrame "AAD/fwGA/z//fw==") =
  Some (Some [0; 32767; -32767; 16383; 32767])%Z.
Proof. vm_compute. reflexivity. Qed.

Example createBlob_sample :
  data (@createBlob spec_utils [0; 1; -1; 0.5; 3]%float) = "AAD/fwGA/z//fw=="%string.
Proof. vm_compute. reflexivity. Qed.

Example decodeAudioData_sample :
  spec_decodeAudioData [0; 64; 0; 128; 1; 0]%Z (mkContext 24000) 24000 1 =
  Normal (mkBuffer [0.5; -1; 0.000030517578125]%float).
Proof. vm_compute. reflexivity. Qed.

(** ** The round trip through the codec *)

Module Codec.
Local Open Scope Z_scope.

Lemma sextet_char n :
  0 <= n < 64 ->
  b64_index (b64_char n) = Some n /\ Ascii.eqb (b64_char n) pad = false.
Proof.
  intros Hn.
  assert (T : forallb
    (fun k => match b64_index (b64_char (Z.of_nat k)) with
              | Some m => Z.eqb m (Z.of_nat k)
              | None => false
              end && negb (Ascii.eqb (b64_char (Z.of_nat k)) pad))
    (seq 0 64) = true) by (vm_compute; reflexivity).
  rewrite forallb_forall in T.
  specialize (T (Z.to_nat n)). rewrite Z2Nat.id in T by lia.
  assert (I : In (Z.to_nat n) (seq 0 64)) by (apply in_seq; lia).
  apply T in I. apply andb_true_iff in I. destruct I as [I1 I2].
  destruct (b64_index (b64_char n)) as [m|]; [|discriminate].
  apply Z.eqb_eq in I1. subst m.
  split; [reflexivity|]. now apply negb_true_iff.
Qed.

Lemma triple_sextets a b c :
  is_byte a -> is_byte b -> is_byte c ->
  (0 <= a / 4 < 64) /\ (0 <= (a mod 4) * 16 + b / 16 < 64) /\
  (0 <= (b mod 16) * 4 + c / 64 < 64) /\ (0 <= c mod 64 < 64) /\
  (a / 4) * 4 + ((a mod 4) * 16 + b / 16) / 16 = a /\
  (((a mod 4) * 16 + b / 16) mod 16) * 16 + ((b mod 16) * 4 + c / 64) / 4 = b /\
  (((b mod 16) * 4 + c / 64) mod 4) * 64 + c mod 64 = c.
Proof.
  unfold is_byte. intros Ha Hb Hc.
  repeat split; Z.div_mod_to_equations; lia.
Qed.

Lemma list_ind3 (P : list Z -> Prop) :
  P [] -> (forall a, P [a]) -> (forall a b, P [a; b]) ->
  (forall a b c l, P l -> P (a :: b :: c :: l)) ->
  forall l, P l.
Proof.
  intros H0 H1 H2 H3. fix IH 1.
  intros [|a [|b [|c l]]]; [exact H0 | apply H1 | apply H2 | apply H3, IH].
Qed.

Lemma b64_decode_encode bs :
  Forall is_byte bs -> b64_decode (b64_encode bs) = Some bs.
Proof.
  induction bs as [|a|a b|a b c l IH] using list_ind3; intros H.
  - reflexivity.
  - inversion H as [|? ? Ha _]; subst.
    destruct (triple_sextets a a a Ha Ha Ha) as (S1 & _).
    assert (Z0 : is_byte 0) by (unfold is_byte; lia).
    destruct (triple_sextets a 0 0 Ha Z0 Z0) as (_ & S2 & _ & _ & E1 & _).
    change (0 / 16) with 0 in *. rewrite Z.add_0_r in *.
    cbn [b64_encode b64_decode].
    destruct (sextet_char _ S1) as (-> & _). destruct (sextet_char _ S2) as (-> & _).
    cbn. rewrite E1. reflexivity.
  - inversion H as [|? ? Ha H']; subst. inversion H' as [|? ? Hb _]; subst.
    assert (Z0 : is_byte 0) by (unfold is_byte; lia).
    destruct (triple_sextets a b 0 Ha Hb Z0) as (S1 & S2 & S3 & _ & E1 & E2 & _).
    change (0 / 64) with 0 in *. rewrite Z.add_0_r in *.
    cbn [b64_encode b64_decode].
    destruct (sextet_char _ S1) as (-> & _). destruct (sextet_char _ S2) as (-> & _).
    destruct (sextet_char _ S3) as (-> & ->).
    cbn. rewrite E1, E2. reflexivity.
  - inversion H as [|? ? Ha H']; subst. inversion H' as [|? ? Hb H'']; subst.
    inversion H'' as [|? ? Hc Hl]; subst.
    destruct (triple_sextets a b c Ha Hb Hc) as (S1 & S2 & S3 & S4 & E1 & E2 & E3).
    cbn [b64_encode b64_decode].
    destruct (sextet_char _ S1) as (-> & _). destruct (sextet_char _ S2) as (-> & _).
    destruct (sextet_char _ S3) as (-> & ->). destruct (sextet_char _ S4) as (-> & ->).
    rewrite (IH Hl), E1, E2, E3. reflexivity.
Qed.

Lemma pack16_bytes v : Forall is_byte (pack16 v).
Proof.
  unfold pack16, is_byte. repeat constructor; Z.div_mod_to_equations; lia.
Qed.

Lemma unpack16_pack16 v :
  is_int16 v -> unpack16 ((v mod 65536) mod 256) ((v mod 65536) / 256) = v.
Proof.
  unfold is_int16, unpack16. intros Hv.
  assert (E : (v mod 65536) mod 256 + 256 * ((v mod 65536) / 256) = v mod 65536)
    by (Z.div_mod_to_equations; lia).
  rewrite E.
  destruct (32768 <=? v mod 65536) eqn:L;
    [apply Z.leb_le in L | apply Z.leb_gt in L]; Z.div_mod_to_equations; lia.
Qed.

Lemma int16s_of_packed vs :
  Forall is_int16 vs -> int16s_of_bytes (flat_map pack16 vs) = Some vs.
Proof.
  induction 1 as [|v vs Hv _ IH]; [reflexivity|].
  cbn [flat_map pack16 app int16s_of_bytes]. rewrite IH, (unpack16_pack16 v Hv). reflexivity.
Qed.

Lemma packed_bytes vs : Forall is_byte (flat_map pack16 vs).
Proof.
  induction vs as [|v vs IH]; [constructor|].
  cbn [flat_map]. apply Forall_app. split; [apply pack16_bytes | exact IH].
Qed.

Local Open Scope Q_scope.

Lemma truncate_error q : Qabs (inject_Z (truncate q) - q) < 1.
Proof.
  destruct q as [n d]. unfold truncate. cbn [Qnum Qden].
  apply Qabs_Qlt_condition.
  pose proof (Z.quot_rem' n (Zpos d)) as E.
  assert (R : (Z.abs (Z.rem n (Zpos d)) < Zpos d)%Z)
    by (rewrite <- (Z.abs_eq (Zpos d)) at 2 by lia; apply Z.rem_bound_abs; lia).
  unfold Qlt, Qminus, Qplus, Qopp, inject_Z. cbn [Qnum Qden].
  split; nia.
Qed.

Lemma truncate_range q (k : Z) :
  (0 <= k)%Z -> - inject_Z k <= q <= inject_Z k -> (- k <= truncate q <= k)%Z.
Proof.
  destruct q as [n d]. unfold truncate, Qle, Qopp, inject_Z. cbn [Qnum Qden].
  intros Hk [L U].
  pose proof (Z.quot_rem' n (Zpos d)) as E.
  assert (R : (Z.abs (Z.rem n (Zpos d)) < Zpos d)%Z)
    by (rewrite <- (Z.abs_eq (Zpos d)) at 2 by lia; apply Z.rem_bound_abs; lia).
  assert (S : (0 <= Z.rem n (Zpos d) * n)%Z).
  { destruct (Z.eq_dec (Z.rem n (Zpos d)) 0) as [Z0|NZ]; [rewrite Z0; lia|].
    pose proof (Z.rem_sign_nz n (Zpos d) ltac:(lia) NZ) as Sg.
    destruct n; cbn in Sg |- *; try lia;
      destruct (Z.rem _ _); cbn in Sg |- *; try lia; discriminate. }
  split; nia.
Qed.

Lemma clamp_bounds x : -1 <= clamp x <= 1.
Proof.
  unfold clamp. split.
  - apply Q.le_max_l.
  - apply Q.max_lub; [discriminate | apply Q.le_min_l].
Qed.

Lemma clamp_inside x : -1 <= x <= 1 -> clamp x == x.
Proof.
  intros [L U]. unfold clamp.
  assert (E : Qmin 1 x == x) by (apply Q.min_r; exact U).
  rewrite Q.max_r; [exact E|]. rewrite E. exact L.
Qed.

Lemma to_int16_range x : is_int16 (to_int16 x).
Proof.
  unfold to_int16, is_int16, int16_scale.
  destruct (clamp_bounds x) as [L U].
  assert (R : (- (32767) <= truncate (clamp x * inject_Z 32767) <= 32767)%Z).
  { apply truncate_range; [lia|]. split.
    - setoid_replace (- inject_Z 32767) with ((-1) * inject_Z 32767) by reflexivity.
      apply Qmult_le_compat_r; [exact L | discriminate].
    - setoid_replace (inject_Z 32767) with (1 * inject_Z 32767) at 2 by reflexivity.
      apply Qmult_le_compat_r; [exact U | discriminate]. }
  lia.
Qed.

Lemma to_int16_error x :
  -1 <= x <= 1 ->
  Qabs (inject_Z (to_int16 x) - x * inject_Z int16_scale) < 1.
Proof.
  intros H. unfold to_int16.
  rewrite <- (clamp_inside x H) at 2.
  apply truncate_error.
Qed.

(** C4.  For samples in [-1, 1], decoding the encoded frame gives back
    the frame's bytes, these read as 16-bit samples, and each of them
    is within one step of the 16-bit scale of the sample it came from. *)
Theorem encodeFrame_decodeFrame_roundtrip (samples : list Q) :
  Forall (fun x => -1 <= x <= 1) samples ->
  exists bytes pcm,
    decodeFrame (data (encodeFrame samples)) = Some bytes /\
    int16s_of_bytes bytes = Some pcm /\
    Forall2 (fun x v => is_int16 v /\
                        Qabs (inject_Z v - x * inject_Z int16_scale) < 1)
      samples pcm.
Proof.
  intros H. exists (pcm_bytes samples), (map to_int16 samples).
  split; [|split].
  - unfold decodeFrame, encodeFrame. cbn [data].
    rewrite list_ascii_of_string_of_list_ascii.
    apply b64_decode_encode. apply packed_bytes.
  - apply int16s_of_packed. apply Forall_map, Forall_forall.
    intros x _. apply to_int16_range.
  - induction H as [|x l Hx Hl IH]; [constructor|].
    cbn [map]. constructor; [|exact IH].
    split; [apply to_int16_range | now apply to_int16_error].
Qed.

Lemma encodeFrame_decodeFrame_roundtrip_witness :
  exists bytes pcm,
    decodeFrame (data (encodeFrame [0; 1 # 2; -1; 1])) = Some bytes /\
    int16s_of_bytes bytes = Some pcm /\
    Forall2 (fun x v => is_int16 v /\
                        Qabs (inject_Z v - x * inject_Z int16_scale) < 1)
      [0; 1 # 2; -1; 1] pcm.
Proof.
  apply (encodeFrame_decodeFrame_roundtrip [0; 1 # 2; -1; 1]).
  repeat constructor; discriminate.
Defined.
End Codec.

(** ** Resource release *)


Lemma bind_run A B (m : M A) (k : A -> M B) s :
  bind m k s =
  match completion (m s) with
  | Normal a =>
      mkOutcome (calls (m s) ++ calls (k a (final (m s))))
        (final (k a (final (m s)))) (completion (k a (final (m s))))
  | Threw e => mkOutcome (calls (m s)) (final (m s)) (Threw e)
  end.
Proof. reflexivity. Qed.

Lemma guarded_stop_run n s :
  try_catch (source_stop n) (fun _ => ret tt) s =
  mkOutcome (stop_calls [n]) s (Normal tt).
Proof.
  unfold try_catch, source_stop, stop_calls. cbn.
  destruct (started n); reflexivity.
Qed.

Lemma stop_calls_cons n l : stop_calls (n :: l) = stop_calls [n] ++ stop_calls l.
Proof. unfold stop_calls. cbn [flat_map]. now rewrite app_nil_r. Qed.

Lemma forEach_guarded_stop l s :
  forEach (fun source => try_catch (source_stop source) (fun _ => ret tt)) l s
  = mkOutcome (stop_calls l) s (Normal tt).
Proof.
  induction l as [|n l IH]; [reflexivity|].
  cbn [forEach]. rewrite bind_run, guarded_stop_run. cbn [completion final calls].
  rewrite IH. cbn [completion final calls]. rewrite (stop_calls_cons n l). reflexivity.
Qed.

Lemma forEach_track_stop (l : list MediaStreamTrack) : forall i s,
  forEach_from i (fun i _ => host (Track_stop i)) l s =
  mkOutcome (map Track_stop (seq i (List.length l))) s (Normal tt).
Proof.
  induction l as [|t l IH]; intros i s; [reflexivity|].
  cbn [forEach_from]. rewrite bind_run. cbn [host completion final calls].
  rewrite IH. reflexivity.
Qed.

Lemma cleanupAudio_run s :
  cleanupAudio s = mkOutcome (cleanup_calls s) (released s) (Normal tt).
Proof.
  destruct s as [cs lg mic v av ic oc ms pr sn sp nt srcs].
  unfold cleanupAudio, cleanup_calls, released.
  rewrite bind_run. cbn [gets completion final calls audioSourcesRef].
  rewrite bind_run, forEach_guarded_stop. cbn [completion final calls].
  destruct pr, sn, ms, ic, oc; cbn;
    rewrite ?bind_run, ?forEach_track_stop; cbn; rewrite ?app_nil_r; reflexivity.
Qed.

Lemma released_idem s : released (released s) = released s.
Proof. reflexivity. Qed.

Lemma cleanup_calls_released s : cleanup_calls (released s) = [].
Proof. reflexivity. Qed.

Lemma stop_calls_In n l :
  In n l -> started n <> None -> In (BufferSource_stop (node_id n)) (stop_calls l).
Proof.
  intros Hin Hs. unfold stop_calls. apply in_flat_map. exists n. split; [assumption|].
  destruct (started n); [left; reflexivity | contradiction].
Qed.

(** C5.  [cleanupAudio] never throws, from any state; a second call
    right after the first makes no host call and leaves the state as
    the first left it; after it both volume indicators are 0 and every
    audio handle is null, and what the handles held has been stopped,
    disconnected or closed. *)
Theorem cleanupAudio_idempotent_total (s : App) :
  let once := cleanupAudio s in
  let twice := cleanupAudio (final once) in
  completion once = Normal tt /\
  twice = mkOutcome [] (final once) (Normal tt) /\
  (volume (final once) = 0%float /\ aiVolume (final once) = 0%float /\
   audioSourcesRef (final once) = [] /\ processorRef (final once) = None /\
   sourceNodeRef (final once) = None /\ mediaStreamRef (final once) = None /\
   inputAudioContextRef (final once) = None /\
   outputAudioContextRef (final once) = None) /\
  (forall n, In n (audioSourcesRef s) -> started n <> None ->
     In (BufferSource_stop (node_id n)) (calls once)) /\
  (processorRef s <> None ->
     In (AudioNode_disconnect ProcessorNode) (calls once) /\
     In (Processor_set_onaudioprocess false) (calls once)) /\
  (sourceNodeRef s <> None ->
     In (AudioNode_disconnect StreamSourceNode) (calls once)) /\
  (forall ms i, mediaStreamRef s = Some ms ->
     (i < List.length (getAudioTracks ms))%nat -> In (Track_stop i) (calls once)) /\
  (forall c, inputAudioContextRef s = Some c -> In (AudioContext_close c) (calls once)) /\
  (forall c, outputAudioContextRef s = Some c -> In (AudioContext_close c) (calls once)).
Proof.
  cbv zeta. rewrite !cleanupAudio_run. cbn [final completion calls].
  split; [reflexivity|]. split; [reflexivity|].
  split; [repeat split|].
  unfold cleanup_calls.
  repeat split.
  - intros n Hin Hs. apply in_or_app. left. now apply stop_calls_In.
  - destruct (processorRef s); [|contradiction].
    apply in_or_app; right. apply in_or_app; left. now left.
  - destruct (processorRef s); [|contradiction].
    apply in_or_app; right. apply in_or_app; left. right; now left.
  - intros H. destruct (sourceNodeRef s); [|contradiction].
    do 2 (apply in_or_app; right). apply in_or_app; left. now left.
  - intros ms i E Hi. rewrite E.
    do 3 (apply in_or_app; right). apply in_or_app; left.
    apply in_map, in_seq. lia.
  - intros c E. rewrite E.
    do 4 (apply in_or_app; right). apply in_or_app; left. now left.
  - intros c E. rewrite E.
    do 5 (apply in_or_app; right). now left.
Qed.

(** ** Disconnect *)
Lemma await_fulfilled p session s :
  settles_to p = Fulfilled session -> await p s = mkOutcome [] s (Normal session).
Proof. intros E. unfold await. rewrite E. reflexivity. Qed.

Lemma cleanup_calls_no_session s :
  Forall (fun c => is_session_call c = false) (cleanup_calls s).
Proof.
  unfold cleanup_calls.
  repeat (apply Forall_app; split).
  - unfold stop_calls. apply Forall_flat_map, Forall_forall. intros n _.
    destruct (started n); repeat constructor.
  - destruct (processorRef s); repeat constructor.
  - destruct (sourceNodeRef s); repeat constructor.
  - destruct (mediaStreamRef s); [|constructor].
    apply Forall_map, Forall_forall. reflexivity.
  - destruct (inputAudioContextRef s); repeat constructor.
  - destruct (outputAudioContextRef s); repeat constructor.
Qed.

(** C10 (amended).  Without a session promise [handleDisconnect] does
    nothing.  With one that is fulfilled it logs, runs the cleanup,
    sets the state to [DISCONNECTED] and nulls the session handle, and
    none of its host calls is a call on the session object.  With one
    that is rejected it logs and the [await] throws: no cleanup, no
    host call, and state and handle stay as they were. *)
Theorem handleDisconnect_local_only :
  (forall s, sessionPromiseRef s = None ->
     handleDisconnect s = mkOutcome [] s (Normal tt)) /\
  (forall s p session,
     sessionPromiseRef s = Some p -> settles_to p = Fulfilled session ->
     let o := handleDisconnect s in
     completion o = Normal tt /\
     final o =
       mkApp DISCONNECTED (logs s ++ [mkLog system "Disconnecting..."]) (isMicOn s)
         0%float 0%float None None None None None None (nextStartTimeRef s) [] /\
     calls o = calls (cleanupAudio s) /\
     Forall (fun c => is_session_call c = false) (calls o)) /\
  (forall s p e,
     sessionPromiseRef s = Some p -> settles_to p = Rejected e ->
     let o := handleDisconnect s in
     completion o = Threw e /\
     final o = setLogs (logs s ++ [mkLog system "Disconnecting..."]) s /\
     calls o = []).
Proof.
  split; [|split].
  - intros s E. unfold handleDisconnect. rewrite bind_run. cbn. rewrite E. reflexivity.
  - intros s p session E Hp. cbv zeta.
    assert (R : handleDisconnect s =
      mkOutcome (cleanup_calls s)
        (mkApp DISCONNECTED (logs s ++ [mkLog system "Disconnecting..."]) (isMicOn s)
           0%float 0%float None None None None None None (nextStartTimeRef s) [])
        (Normal tt)).
    { unfold handleDisconnect. rewrite bind_run. cbn [gets completion final calls].
      rewrite E. rewrite bind_run. cbn [addLog modify completion final calls].
      rewrite bind_run, (await_fulfilled p session _ Hp). cbn [completion final calls].
      rewrite bind_run, cleanupAudio_run. cbn. rewrite app_nil_r. reflexivity. }
    rewrite R, cleanupAudio_run. cbn [completion final calls].
    repeat split. apply cleanup_calls_no_session.
  - intros s p e E Hp. cbv zeta.
    assert (R : handleDisconnect s =
      mkOutcome [] (setLogs (logs s ++ [mkLog system "Disconnecting..."]) s) (Threw e)).
    { unfold handleDisconnect. rewrite bind_run. cbn [gets completion final calls].
      rewrite E. rewrite bind_run. cbn [addLog modify completion final calls].
      rewrite bind_run. unfold await. rewrite Hp. reflexivity. }
    rewrite R. repeat split.
Qed.

(** ** Mute *)

Section Capture.
Context {utils : AudioUtilsImports}.

Lemma onaudioprocess_run inputData s :
  onaudioprocess inputData s =
  mkOutcome
    match sessionPromiseRef s with
    | Some p =>
        match settles_to p with
        | Fulfilled session =>
            [Session_sendRealtimeInput session (createBlob inputData)]
        | Rejected _ => []
        end
    | None => []
    end
    (setVolume (input_volume inputData) s) (Normal tt).
Proof.
  unfold onaudioprocess. rewrite bind_run. cbn [modify completion final calls].
  rewrite bind_run. cbn [gets completion final calls app].
  change (sessionPromiseRef (setVolume (input_volume inputData) s))
    with (sessionPromiseRef s).
  destruct (sessionPromiseRef s) as [p|]; [|reflexivity].
  unfold then_. destruct (settles_to p); reflexivity.
Qed.

(** C9 (amended).  [toggleMic] makes no host call and changes three
    things only: the first audio track's [enabled] flag (flipped), the
    mic-on indicator (set to the track's new flag, which flips it
    exactly when indicator and flag agreed before) and the log (one
    entry).  The capture callback behaves on the state after the
    toggle as on the state before: the frame is metered and, with a
    fulfilled session promise, sent. *)
Theorem toggleMic_flips_track_flag_only
    (s : App) (ms : MediaStream) (audioTrack : MediaStreamTrack)
    (others : list MediaStreamTrack) :
  mediaStreamRef s = Some ms ->
  getAudioTracks ms = audioTrack :: others ->
  let o := toggleMic s in
  let flag := negb (enabled audioTrack) in
  completion o = Normal tt /\ calls o = [] /\
  final o =
    mkApp (connectionState s)
      (logs s ++ [mkLog system (if flag then "Microphone unmuted."
                                else "Microphone muted.")])
      flag (volume s) (aiVolume s)
      (inputAudioContextRef s) (outputAudioContextRef s)
      (Some (mkStream (mkTrack flag (readyState audioTrack) :: others)))
      (processorRef s) (sourceNodeRef s) (sessionPromiseRef s)
      (nextStartTimeRef s) (audioSourcesRef s) /\
  (isMicOn s = enabled audioTrack -> isMicOn (final o) = negb (isMicOn s)) /\
  (isMicOn s <> enabled audioTrack -> isMicOn (final o) = isMicOn s) /\
  (forall inputData,
     let before := onaudioprocess inputData s in
     let after := onaudioprocess inputData (final o) in
     calls after = calls before /\
     completion after = Normal tt /\
     volume (final after) = input_volume inputData /\
     forall p session,
       sessionPromiseRef s = Some p -> settles_to p = Fulfilled session ->
       calls after = [Session_sendRealtimeInput session (createBlob inputData)]).
Proof.
  intros E Et. cbv zeta.
  assert (R : toggleMic s =
    mkOutcome []
      (mkApp (connectionState s)
         (logs s ++ [mkLog system (if negb (enabled audioTrack)
                                   then "Microphone unmuted."
                                   else "Microphone muted.")])
         (negb (enabled audioTrack)) (volume s) (aiVolume s)
         (inputAudioContextRef s) (outputAudioContextRef s)
         (Some (mkStream (mkTrack (negb (enabled audioTrack))
                            (readyState audioTrack) :: others)))
         (processorRef s) (sourceNodeRef s) (sessionPromiseRef s)
         (nextStartTimeRef s) (audioSourcesRef s))
      (Normal tt)).
  { unfold toggleMic. rewrite bind_run. cbn [gets completion final calls].
    rewrite E, Et. reflexivity. }
  rewrite R. cbn [completion final calls].
  repeat split.
  - cbn. intros ->. reflexivity.
  - cbn. destruct (isMicOn s), (enabled audioTrack); intros H;
      try reflexivity; exfalso; apply H; reflexivity.
  - rewrite !onaudioprocess_run. reflexivity.
  - rewrite onaudioprocess_run. reflexivity.
  - rewrite onaudioprocess_run. reflexivity.
  - intros p session Ep Hp. rewrite onaudioprocess_run. cbn. rewrite Ep, Hp. reflexivity.
Qed.

End Capture.

(** *** Stepping a handler one statement at a time *)

Lemma after_calls_outcome A c c' s (r : Completion A) :
  after_calls c (mkOutcome c' s r) = mkOutcome (c ++ c') s r.
Proof. reflexivity. Qed.

Lemma after_no_calls A (o : Outcome A) : after_calls [] o = o.
Proof. destruct o; reflexivity. Qed.

Lemma step_modify B f (k : unit -> M B) s : bind (modify f) k s = k tt (f s).
Proof. unfold bind, modify. cbn. destruct (k tt (f s)); reflexivity. Qed.

Lemma step_gets A B (f : App -> A) (k : A -> M B) s : bind (gets f) k s = k (f s) s.
Proof. unfold bind, gets. cbn. destruct (k (f s) s); reflexivity. Qed.

Lemma step_ret A B (a : A) (k : A -> M B) s : bind (ret a) k s = k a s.
Proof. unfold bind, ret. cbn. destruct (k a s); reflexivity. Qed.

Lemma step_throw A B e (k : A -> M B) s :
  bind (throw e) k s = mkOutcome [] s (Threw e).
Proof. reflexivity. Qed.

Lemma step_host B c (k : unit -> M B) s :
  bind (host c) k s = after_calls [c] (k tt s).
Proof. reflexivity. Qed.

Lemma step_addLog B t sd (k : unit -> M B) s :
  bind (addLog t sd) k s = k tt (setLogs (logs s ++ [mkLog sd t]) s).
Proof.
  exact (step_modify B (fun s0 => setLogs (logs s0 ++ [mkLog sd t]) s0) k s).
Qed.

Lemma step_settle_Normal A B (a : A) (k : A -> M B) s :
  bind (settle (Normal a)) k s = k a s.
Proof. apply step_ret. Qed.

Lemma step_settle_Threw A B e (k : A -> M B) s :
  bind (settle (Threw e)) k s = mkOutcome [] s (Threw e).
Proof. reflexivity. Qed.

Lemma step_known A B (m : M A) (k : A -> M B) s c s' a :
  m s = mkOutcome c s' (Normal a) -> bind m k s = after_calls c (k a s').
Proof. intros E. unfold bind. rewrite E. reflexivity. Qed.

Lemma step_known_throw A B (m : M A) (k : A -> M B) s c s' e :
  m s = mkOutcome c s' (Threw e) -> bind m k s = mkOutcome c s' (Threw e).
Proof. intros E. unfold bind. rewrite E. reflexivity. Qed.

Lemma try_catch_Normal A (m : M A) h s c s' a :
  m s = mkOutcome c s' (Normal a) -> try_catch m h s = mkOutcome c s' (Normal a).
Proof. intros E. unfold try_catch. rewrite E. reflexivity. Qed.

Lemma try_catch_Threw A (m : M A) h s c s' e :
  m s = mkOutcome c s' (Threw e) -> try_catch m h s = after_calls c (h e s').
Proof. intros E. unfold try_catch. rewrite E. reflexivity. Qed.

Ltac step :=
  first [ rewrite step_modify | rewrite step_addLog | rewrite step_gets
        | rewrite step_ret | rewrite step_settle_Normal
        | rewrite step_settle_Threw | rewrite step_throw | rewrite step_host ].

Ltac steps := repeat step; rewrite ?after_calls_outcome, ?after_no_calls.

(** ** Connect *)

Lemma try_catch_run A (m : M A) (h : JsError -> M A) s :
  try_catch m h s =
  match completion (m s) with
  | Normal _ => m s
  | Threw e =>
      mkOutcome (calls (m s) ++ calls (h e (final (m s))))
        (final (h e (final (m s)))) (completion (h e (final (m s))))
  end.
Proof. reflexivity. Qed.

Lemma console_errors_app a b :
  console_errors (a ++ b) = console_errors a ++ console_errors b.
Proof. apply flat_map_app. Qed.

Lemma console_errors_cleanup s : console_errors (cleanup_calls s) = [].
Proof.
  unfold cleanup_calls. rewrite !console_errors_app.
  assert (S : console_errors (stop_calls (audioSourcesRef s)) = []).
  { unfold stop_calls. induction (audioSourcesRef s) as [|n l IH]; [reflexivity|].
    cbn [flat_map]. rewrite console_errors_app, IH.
    destruct (started n); reflexivity. }
  assert (T : forall l i, console_errors (map Track_stop (seq i l)) = []).
  { induction l as [|l IH]; intros i; [reflexivity|]. cbn. apply IH. }
  rewrite S.
  destruct (processorRef s), (sourceNodeRef s), (mediaStreamRef s),
    (inputAudioContextRef s), (outputAudioContextRef s); cbn; rewrite ?T; reflexivity.
Qed.

(** What [connectToGemini] does when one of its steps throws; [s1] is
    the state in which the [catch] starts. *)
Lemma connect_failure_run env s error :
  first_failure env = Some error ->
  exists s1 k,
    connectToGemini env s =
      mkOutcome (console_error (message error) :: cleanup_calls s1)
        (released (setConnectionState ERROR
           (setLogs (logs s1 ++ [connect_failure_entry error]) s1)))
        (Normal tt) /\
    logs s1 = logs s ++ firstn k connect_progress /\
    inputAudioContextRef s1 =
      match new_inputContext env with
      | Normal c => Some c
      | Threw _ => inputAudioContextRef s
      end /\
    outputAudioContextRef s1 =
      match new_inputContext env, new_outputContext env with
      | Normal _, Normal c => Some c
      | _, _ => outputAudioContextRef s
      end /\
    mediaStreamRef s1 =
      match new_inputContext env, new_outputContext env, getUserMedia env with
      | Normal _, Normal _, Normal ms => Some ms
      | _, _, _ => mediaStreamRef s
      end /\
    nextStartTimeRef s1 = nextStartTimeRef s.
Proof.
  unfold first_failure. intros F.
  unfold connectToGemini.
  match goal with |- context [try_catch ?m ?h] => set (body := m); set (handler := h) end.
  assert (B : exists s1 k,
    body s = mkOutcome [] s1 (Threw error) /\
    logs s1 = logs s ++ firstn k connect_progress /\
    inputAudioContextRef s1 =
      match new_inputContext env with
      | Normal c => Some c
      | Threw _ => inputAudioContextRef s
      end /\
    outputAudioContextRef s1 =
      match new_inputContext env, new_outputContext env with
      | Normal _, Normal c => Some c
      | _, _ => outputAudioContextRef s
      end /\
    mediaStreamRef s1 =
      match new_inputContext env, new_outputContext env, getUserMedia env with
      | Normal _, Normal _, Normal ms => Some ms
      | _, _, _ => mediaStreamRef s
      end /\
    nextStartTimeRef s1 = nextStartTimeRef s).
  { subst body. clear handler.
    destruct (new_inputContext env) as [ci|e1];
      [|injection F as ->; eexists; exists 1%nat; split;
        [steps; reflexivity | cbn; rewrite <- ?app_assoc; repeat split]].
    destruct (new_outputContext env) as [co|e2];
      [|injection F as ->; eexists; exists 1%nat; split;
        [steps; reflexivity | cbn; rewrite <- ?app_assoc; repeat split]].
    destruct (getUserMedia env) as [ms|e3];
      [|injection F as ->; eexists; exists 2%nat; split;
        [steps; reflexivity | cbn; rewrite <- ?app_assoc; repeat split]].
    destruct (new_GoogleGenAI env) as [[]|e4];
      [|injection F as ->; eexists; exists 2%nat; split;
        [steps; reflexivity | cbn; rewrite <- ?app_assoc; repeat split]].
    destruct (live_connect env) as [p|e5]; [discriminate|].
    injection F as ->; eexists; exists 3%nat; split;
      [steps; reflexivity | cbn; rewrite <- ?app_assoc; repeat split]. }
  destruct B as (s1 & k & Eb & Hl & Hi & Ho & Hm & Hn).
  exists s1, k. split; [|repeat split; assumption].
  erewrite try_catch_Threw by exact Eb. subst handler. cbv beta.
  steps. rewrite cleanupAudio_run. reflexivity.
Qed.

Lemma describes_connect_failure error :
  describes_failure (connect_failure_entry error) = true.
Proof. reflexivity. Qed.

Lemma filter_progress_failure k error :
  filter describes_failure (firstn k connect_progress ++ [connect_failure_entry error])
  = [connect_failure_entry error].
Proof.
  rewrite filter_app.
  assert (P : filter describes_failure (firstn k connect_progress) = []).
  { do 4 (destruct k as [|k]; [reflexivity|]). reflexivity. }
  rewrite P. reflexivity.
Qed.

(** X19.  When a step of [connectToGemini] throws, the exception does
    not leave the handler, the state becomes [ERROR], every handle is
    null and what was acquired before the throw has been closed or
    stopped, and the log gains exactly one entry that describes the
    failure (after the progress lines logged before the throw). *)
Theorem connect_failure_is_caught (env : ConnectEnv) (s : App) (error : JsError) :
  first_failure env = Some error ->
  let o := connectToGemini env s in
  completion o = Normal tt /\
  connectionState (final o) = ERROR /\
  (audioSourcesRef (final o) = [] /\ processorRef (final o) = None /\
   sourceNodeRef (final o) = None /\ mediaStreamRef (final o) = None /\
   inputAudioContextRef (final o) = None /\
   outputAudioContextRef (final o) = None /\
   volume (final o) = 0%float /\ aiVolume (final o) = 0%float) /\
  (exists appended,
     logs (final o) = logs s ++ appended /\
     filter describes_failure appended = [connect_failure_entry error]) /\
  console_errors (calls o) = [message error] /\
  (forall c, new_inputContext env = Normal c -> In (AudioContext_close c) (calls o)) /\
  (forall c c', new_inputContext env = Normal c -> new_outputContext env = Normal c' ->
     In (AudioContext_close c') (calls o)) /\
  (forall c c' ms i, new_inputContext env = Normal c ->
     new_outputContext env = Normal c' -> getUserMedia env = Normal ms ->
     (i < List.length (getAudioTracks ms))%nat -> In (Track_stop i) (calls o)).
Proof.
  intros F. cbv zeta.
  destruct (connect_failure_run env s error F) as (s' & k & R & El & Ei & Eo & Em & _).
  rewrite R. cbn [completion final calls].
  split; [reflexivity|]. split; [reflexivity|]. split; [repeat split|].
  split.
  { exists (firstn k connect_progress ++ [connect_failure_entry error]).
    split; [cbn; rewrite El, app_assoc; reflexivity | apply filter_progress_failure]. }
  split.
  { change (console_error (message error) :: cleanup_calls s')
      with ([console_error (message error)] ++ cleanup_calls s').
    rewrite console_errors_app, console_errors_cleanup. reflexivity. }
  unfold cleanup_calls.
  split; [|split].
  - intros c Ec. rewrite Ec in Ei. right. rewrite Ei.
    do 4 (apply in_or_app; right). apply in_or_app; left. now left.
  - intros c c' Ec Ec'. rewrite Ec, Ec' in Eo. right. rewrite Eo.
    do 5 (apply in_or_app; right). now left.
  - intros c c' ms i Ec Ec' Ems Hi. rewrite Ec, Ec', Ems in Em. right. rewrite Em.
    do 3 (apply in_or_app; right). apply in_or_app; left.
    apply in_map, in_seq. lia.
Qed.

(** ** The playback scheduler *)

Lemma source_stop_started n s :
  started n <> None ->
  source_stop n s = mkOutcome [BufferSource_stop (node_id n)] s (Normal tt).
Proof.
  unfold source_stop. destruct (started n); [reflexivity | contradiction].
Qed.

Lemma stop_calls_started n l :
  started n <> None ->
  stop_calls (n :: l) = BufferSource_stop (node_id n) :: stop_calls l.
Proof.
  intros H. unfold stop_calls. cbn [flat_map].
  destruct (started n); [reflexivity | contradiction].
Qed.

Lemma forEach_stop_started l s :
  Forall (fun n => started n <> None) l ->
  forEach source_stop l s = mkOutcome (stop_calls l) s (Normal tt).
Proof.
  induction 1 as [|n l Hn Hl IH]; [reflexivity|].
  cbn [forEach].
  erewrite step_known by (apply source_stop_started; exact Hn).
  rewrite IH, after_calls_outcome, (stop_calls_started n l Hn). reflexivity.
Qed.

Lemma stop_calls_no_start l : start_times (stop_calls l) = [].
Proof.
  unfold stop_calls. induction l as [|n l IH]; [reflexivity|].
  cbn [flat_map]. unfold start_times in *. rewrite flat_map_app, IH.
  destruct (started n); reflexivity.
Qed.

Lemma Set_has_add x l : Set_has (node_id x) (Set_add x l) = true.
Proof.
  unfold Set_add, Set_has.
  destruct (existsb (same_node x) l) eqn:E.
  - apply existsb_exists in E. destruct E as (y & Hy & Hxy).
    apply existsb_exists. exists y. split; [assumption|].
    unfold same_node in Hxy. apply Nat.eqb_eq in Hxy. apply Nat.eqb_eq. congruence.
  - rewrite existsb_app. cbn. rewrite Nat.eqb_refl. apply orb_true_iff. right. reflexivity.
Qed.

Lemma Set_add_started x l :
  started x <> None ->
  Forall (fun n => started n <> None) l ->
  Forall (fun n => started n <> None) (Set_add x l).
Proof.
  intros Hx Hl. unfold Set_add. destruct (existsb _ _); [exact Hl|].
  apply Forall_app. split; [exact Hl|]. constructor; [exact Hx | constructor].
Qed.

Lemma Set_add_incl x l n : In n l -> In n (Set_add x l).
Proof.
  intros H. unfold Set_add. destruct (existsb _ _); [exact H|].
  apply in_or_app. now left.
Qed.

(** The audio branch in one piece: its [try] when the [await] yields
    at once. *)
Local Abbreviation play_audio scope base64Audio env :=
  (try_catch
     (bind (audio_before_await base64Audio env) (audio_after_await scope env))
     audio_catch).

Lemma bind_cong A B (m m' : M A) (k k' : A -> M B) s s' :
  m s = m' s' -> (forall a st, k a st = k' a st) -> bind m k s = bind m' k' s'.
Proof.
  intros E H. unfold bind. rewrite E.
  destruct (completion (m' s')); [rewrite H|]; reflexivity.
Qed.

Lemma try_catch_after A B (m : M A) (k : A -> M B) h s s1 a :
  m s = mkOutcome [] s1 (Normal a) ->
  try_catch (bind m k) h s = try_catch (k a) h s1.
Proof.
  intros E. unfold try_catch.
  rewrite (step_known A B m k s [] s1 a E), after_no_calls. reflexivity.
Qed.

Section Playback.
Context {utils : AudioUtilsImports}.

Lemma audio_before_await_run base64Audio env s :
  audio_before_await base64Audio env s =
  mkOutcome []
    (set_nextStartTimeRef
       (Z.max (nextStartTimeRef s) (currentTime_on_arrival env)) s)
    (decode base64Audio).
Proof.
  unfold audio_before_await. rewrite step_modify.
  destruct (decode base64Audio); reflexivity.
Qed.

Lemma audio_after_await_decoded scope env bytes audioBuffer s :
  decodeAudioData bytes (outputCtx scope) 24000 1 = Normal audioBuffer ->
  audio_after_await scope env bytes s =
  mkOutcome (play_calls scope (new_source_id env) (nextStartTimeRef s))
    (mkApp (connectionState s) (logs s) (isMicOn s) (volume s)
       (output_volume (frequencyData env))
       (inputAudioContextRef s) (outputAudioContextRef s) (mediaStreamRef s)
       (processorRef s) (sourceNodeRef s) (sessionPromiseRef s)
       (nextStartTimeRef s + duration audioBuffer)
       (Set_add (mkSource (new_source_id env) audioBuffer (Some (nextStartTimeRef s)))
          (audioSourcesRef s)))
    (Normal tt).
Proof.
  intros Ea. unfold audio_after_await, play_calls.
  rewrite Ea, step_settle_Normal.
  cbv zeta. unfold updateAiVol. rewrite !step_host.
  destruct (is_CONNECTED (rendered_connectionState scope));
    steps; reflexivity.
Qed.

Lemma audio_after_await_failed scope env bytes e s :
  decodeAudioData bytes (outputCtx scope) 24000 1 = Threw e ->
  audio_after_await scope env bytes s = mkOutcome [] s (Threw e).
Proof.
  intros Ea. unfold audio_after_await. rewrite Ea, step_settle_Threw. reflexivity.
Qed.

Lemma play_audio_decoded scope base64Audio env s audioBuffer :
  decodes_to scope base64Audio audioBuffer ->
  let when := Z.max (nextStartTimeRef s) (currentTime_on_arrival env) in
  play_audio scope base64Audio env s =
  mkOutcome (play_calls scope (new_source_id env) when)
    (mkApp (connectionState s) (logs s) (isMicOn s) (volume s)
       (output_volume (frequencyData env))
       (inputAudioContextRef s) (outputAudioContextRef s) (mediaStreamRef s)
       (processorRef s) (sourceNodeRef s) (sessionPromiseRef s)
       (when + duration audioBuffer)
       (Set_add (mkSource (new_source_id env) audioBuffer (Some when))
          (audioSourcesRef s)))
    (Normal tt).
Proof.
  intros (bytes & Eb & Ea). cbv zeta.
  pose proof (audio_before_await_run base64Audio env s) as B. rewrite Eb in B.
  rewrite (try_catch_after _ _ _ _ _ _ _ _ B).
  apply try_catch_Normal.
  rewrite (audio_after_await_decoded scope env bytes audioBuffer _ Ea). reflexivity.
Qed.

Lemma play_audio_failed scope base64Audio env s e :
  decode_fails scope base64Audio e ->
  play_audio scope base64Audio env s =
  mkOutcome [console_error ("Error decoding audio: " ++ message e)]
    (set_nextStartTimeRef
       (Z.max (nextStartTimeRef s) (currentTime_on_arrival env)) s)
    (Normal tt).
Proof.
  intros Hf.
  pose proof (audio_before_await_run base64Audio env s) as B.
  destruct Hf as [Eb | (bytes & Eb & Ea)]; rewrite Eb in B.
  - erewrite try_catch_Threw by (apply step_known_throw; exact B). reflexivity.
  - rewrite (try_catch_after _ _ _ _ _ _ _ _ B).
    erewrite try_catch_Threw by (apply audio_after_await_failed; exact Ea).
    reflexivity.
Qed.

Lemma interrupt_run env s :
  all_started s ->
  interrupt env s =
  mkOutcome (stop_calls (audioSourcesRef s))
    (mkApp (connectionState s) (logs s ++ [mkLog system "User interrupted AI."])
       (isMicOn s) (volume s) (aiVolume s)
       (inputAudioContextRef s) (outputAudioContextRef s) (mediaStreamRef s)
       (processorRef s) (sourceNodeRef s) (sessionPromiseRef s)
       (currentTime_on_interrupt env) [])
    (Normal tt).
Proof.
  intros H. unfold interrupt. rewrite step_addLog, step_gets.
  erewrite step_known by (apply forEach_stop_started; exact H).
  steps. unfold modify. rewrite after_calls_outcome, app_nil_r. reflexivity.
Qed.

Lemma after_audio_run msg env s :
  after_audio msg env s = (if interrupted msg then interrupt env else ret tt) s.
Proof. unfold after_audio. destruct (turnComplete msg); apply step_ret. Qed.

(** A handler half that ran to its end hands back [None], and nothing
    is left to resume. *)
Lemma ran_to_end (m : M unit) (k : list Z -> M unit) s :
  bind (bind m (fun _ => ret None))
       (fun suspended : option (list Z) =>
          match suspended with Some bytes => k bytes | None => ret tt end) s
  = m s.
Proof.
  unfold bind, ret. destruct (m s) as [c s' [[]|e]]; cbn [completion final calls];
    rewrite ?app_nil_r; reflexivity.
Qed.

Lemma onmessage_arrive_run scope msg env s :
  onmessage_arrive scope msg env s =
  match truthy (inlineData_data msg) with
  | Some base64Audio =>
      let s1 := set_nextStartTimeRef
                  (Z.max (nextStartTimeRef s) (currentTime_on_arrival env)) s in
      match decode base64Audio with
      | Normal bytes => mkOutcome [] s1 (Normal (Some bytes))
      | Threw e =>
          after_calls [console_error ("Error decoding audio: " ++ message e)]
            (bind (after_audio msg env) (fun _ => ret None) s1)
      end
  | None => bind (after_audio msg env) (fun _ => ret None) s
  end.
Proof.
  unfold onmessage_arrive.
  destruct (truthy (inlineData_data msg)) as [base64Audio|]; [|reflexivity].
  cbv zeta. pose proof (audio_before_await_run base64Audio env s) as B.
  destruct (decode base64Audio) as [bytes|e].
  - erewrite step_known by
      (apply try_catch_Normal; erewrite step_known by exact B; reflexivity).
    reflexivity.
  - erewrite step_known by
      (erewrite try_catch_Threw by (apply step_known_throw; exact B);
       unfold audio_catch; rewrite step_host; reflexivity).
    reflexivity.
Qed.

(** [onmessage] in one piece, split at its two branches. *)
Lemma onmessage_run scope msg env s :
  onmessage scope msg env s =
  bind match truthy (inlineData_data msg) with
       | Some base64Audio => play_audio scope base64Audio env
       | None => ret tt
       end
       (fun _ => if interrupted msg then interrupt env else ret tt) s.
Proof.
  unfold onmessage.
  pose proof (onmessage_arrive_run scope msg env s) as A.
  destruct (truthy (inlineData_data msg)) as [base64Audio|].
  - cbv zeta in A.
    pose proof (audio_before_await_run base64Audio env s) as B.
    destruct (decode base64Audio) as [bytes|e] eqn:Eb.
    + rewrite (step_known _ _ _ _ _ _ _ _ A), after_no_calls.
      unfold onmessage_resume. apply bind_cong.
      * symmetry. apply (try_catch_after _ _ _ _ _ _ _ _ B).
      * intros; apply after_audio_run.
    + rewrite (step_known _ _ (try_catch _ _) _ _ _ _ _
                 (play_audio_failed scope base64Audio env s e (or_introl Eb))).
      rewrite <- after_audio_run.
      destruct (after_audio msg env
                  (set_nextStartTimeRef
                     (Z.max (nextStartTimeRef s) (currentTime_on_arrival env)) s))
        as [c2 s2 [[]|e2]] eqn:EA.
      * rewrite (step_known _ _ _ _ _ _ _ _ EA) in A.
        unfold ret in A. rewrite !after_calls_outcome in A.
        rewrite (step_known _ _ _ _ _ _ _ _ A).
        unfold ret. rewrite !after_calls_outcome, !app_nil_r. reflexivity.
      * rewrite (step_known_throw _ _ _ _ _ _ _ _ EA) in A.
        rewrite after_calls_outcome in A.
        rewrite (step_known_throw _ _ _ _ _ _ _ _ A), after_calls_outcome.
        reflexivity.
  - rewrite step_ret, <- after_audio_run.
    rewrite (bind_cong _ _ _ (bind (after_audio msg env) (fun _ => ret None)) _
               (fun suspended : option (list Z) =>
                  match suspended with
                  | Some bytes => onmessage_resume scope msg env bytes
                  | None => ret tt
                  end) s s A (fun _ _ => eq_refl)).
    apply ran_to_end.
Qed.


Lemma decode_outcome scope base64Audio :
  (exists e, decode_fails scope base64Audio e) \/
  (exists audioBuffer, decodes_to scope base64Audio audioBuffer).
Proof.
  unfold decode_fails, decodes_to.
  destruct (decode base64Audio) as [bytes|e] eqn:Eb.
  - destruct (decodeAudioData bytes (outputCtx scope) 24000 1) as [b|e] eqn:Ea.
    + right. exists b, bytes. split; [reflexivity | assumption].
    + left. exists e. right. exists bytes. split; [reflexivity | assumption].
  - left. exists e. left. reflexivity.
Qed.

Lemma then_nothing A (m : M A) s c s' a :
  m s = mkOutcome c s' (Normal a) ->
  bind m (fun _ => ret tt) s = mkOutcome c s' (Normal tt).
Proof.
  intros E. rewrite (step_known A unit m _ s c s' a E).
  unfold ret. rewrite after_calls_outcome, app_nil_r. reflexivity.
Qed.

Lemma start_times_play scope id when :
  start_times (play_calls scope id when) = [(id, when)].
Proof.
  unfold play_calls. destruct (is_CONNECTED (rendered_connectionState scope)); reflexivity.
Qed.

(** One buffer through the scheduler. *)
Lemma schedule_buffer scope msg env s base64Audio audioBuffer :
  truthy (inlineData_data msg) = Some base64Audio ->
  decodes_to scope base64Audio audioBuffer ->
  interrupted msg = false ->
  let o := onmessage scope msg env s in
  let when := Z.max (nextStartTimeRef s) (currentTime_on_arrival env) in
  completion o = Normal tt /\
  start_times (calls o) = [(new_source_id env, when)] /\
  nextStartTimeRef (final o) = (when + duration audioBuffer)%Z /\
  audioSourcesRef (final o) =
    Set_add (mkSource (new_source_id env) audioBuffer (Some when)) (audioSourcesRef s) /\
  Set_has (new_source_id env) (audioSourcesRef (final o)) = true.
Proof.
  intros Et Hd Hi. cbv zeta.
  rewrite onmessage_run, Et, Hi.
  erewrite then_nothing by (apply play_audio_decoded; exact Hd).
  cbn [completion final calls nextStartTimeRef audioSourcesRef].
  repeat split.
  - apply start_times_play.
  - apply (Set_has_add (mkSource (new_source_id env) audioBuffer _)).
Qed.

(** The first half of a message with a payload that decodes: the
    cursor is raised to the clock and the handler waits. *)
Lemma arrive_suspends scope msg env s base64Audio bytes :
  truthy (inlineData_data msg) = Some base64Audio ->
  decode base64Audio = Normal bytes ->
  onmessage_arrive scope msg env s =
  mkOutcome []
    (set_nextStartTimeRef
       (Z.max (nextStartTimeRef s) (currentTime_on_arrival env)) s)
    (Normal (Some bytes)).
Proof.
  intros Et Eb. rewrite onmessage_arrive_run, Et. cbv zeta. rewrite Eb. reflexivity.
Qed.

(** The second half, from the state it finds when it is resumed. *)
Lemma resume_schedules scope msg env bytes audioBuffer s :
  decodeAudioData bytes (outputCtx scope) 24000 1 = Normal audioBuffer ->
  interrupted msg = false ->
  let o := onmessage_resume scope msg env bytes s in
  let when := nextStartTimeRef s in
  completion o = Normal tt /\
  start_times (calls o) = [(new_source_id env, when)] /\
  nextStartTimeRef (final o) = (when + duration audioBuffer)%Z /\
  audioSourcesRef (final o) =
    Set_add (mkSource (new_source_id env) audioBuffer (Some when)) (audioSourcesRef s) /\
  Set_has (new_source_id env) (audioSourcesRef (final o)) = true.
Proof.
  intros Ea Hi. cbv zeta. unfold onmessage_resume.
  erewrite step_known by
    (apply try_catch_Normal; apply audio_after_await_decoded; exact Ea).
  rewrite after_audio_run, Hi. unfold ret. rewrite after_calls_outcome, app_nil_r.
  cbn [completion final calls nextStartTimeRef audioSourcesRef].
  repeat split.
  - apply start_times_play.
  - apply (Set_has_add (mkSource (new_source_id env) audioBuffer _)).
Qed.

(** A message that carries the interruption flag. *)
Lemma onmessage_interrupted scope msg env s :
  interrupted msg = true -> all_started s ->
  let o := onmessage scope msg env s in
  completion o = Normal tt /\
  audioSourcesRef (final o) = [] /\
  nextStartTimeRef (final o) = currentTime_on_interrupt env /\
  (forall n, In n (audioSourcesRef s) ->
     In (BufferSource_stop (node_id n)) (calls o)).
Proof.
  intros Hi Hs. cbv zeta. rewrite onmessage_run, Hi.
  pose proof Hs as Hs0. unfold all_started in Hs0. rewrite Forall_forall in Hs0.
  destruct (truthy (inlineData_data msg)) as [base64Audio|].
  - destruct (decode_outcome scope base64Audio) as [(e & Hf) | (b & Hd)].
    + erewrite step_known by (apply play_audio_failed; exact Hf).
      rewrite interrupt_run by exact Hs. rewrite after_calls_outcome.
      cbn [completion final calls audioSourcesRef nextStartTimeRef].
      repeat split. intros n Hn. right.
      apply stop_calls_In; [exact Hn | now apply Hs0].
    + erewrite step_known by (apply play_audio_decoded; exact Hd).
      match goal with |- context [interrupt env ?s1] =>
        assert (Hs1 : all_started s1) by
          (apply Set_add_started; [discriminate | exact Hs]);
        rewrite (interrupt_run env s1 Hs1)
      end.
      rewrite after_calls_outcome.
      cbn [completion final calls audioSourcesRef nextStartTimeRef].
      repeat split. intros n Hn. apply in_or_app. right.
      apply stop_calls_In; [now apply Set_add_incl | now apply Hs0].
  - rewrite step_ret, interrupt_run by exact Hs.
    cbn [completion final calls audioSourcesRef nextStartTimeRef].
    repeat split. intros n Hn.
    apply stop_calls_In; [exact Hn | now apply Hs0].
Qed.

Lemma forEach_stop_any l s :
  exists cs c,
    forEach source_stop l s = mkOutcome cs s c /\
    console_errors cs = [] /\ start_times cs = [].
Proof.
  induction l as [|n l (cs & c & E & Hc & Ht)].
  - exists [], (Normal tt). repeat split.
  - cbn [forEach]. destruct (started n) as [t|] eqn:En.
    + erewrite step_known by
        (apply source_stop_started; rewrite En; discriminate).
      rewrite E, after_calls_outcome.
      exists ([BufferSource_stop (node_id n)] ++ cs), c. repeat split; assumption.
    + exists [], (Threw (mkError "InvalidStateError")).
      split; [|split; reflexivity].
      apply step_known_throw. unfold source_stop. rewrite En. reflexivity.
Qed.

Lemma interrupt_any env s :
  exists cs s' c,
    interrupt env s = mkOutcome cs s' c /\
    connectionState s' = connectionState s /\
    sessionPromiseRef s' = sessionPromiseRef s /\
    logs s' = logs s ++ [mkLog system "User interrupted AI."] /\
    console_errors cs = [] /\ start_times cs = [].
Proof.
  unfold interrupt. rewrite step_addLog, step_gets.
  match goal with |- context [bind (forEach source_stop ?l) _ ?s1] =>
    destruct (forEach_stop_any l s1) as (cs & c & E & Hc & Ht) end.
  destruct c as [[]|e].
  - erewrite step_known by exact E. steps. unfold modify.
    rewrite after_calls_outcome, app_nil_r.
    do 3 eexists. split; [reflexivity|]. repeat split; assumption.
  - erewrite step_known_throw by exact E.
    do 3 eexists. split; [reflexivity|]. repeat split; assumption.
Qed.

(** What each handler does to the playback cursor and the active set. *)
Lemma connectToGemini_playback env s :
  let s' := final (connectToGemini env s) in
  nextStartTimeRef s' = nextStartTimeRef s /\
  (audioSourcesRef s' = audioSourcesRef s \/ audioSourcesRef s' = []).
Proof.
  cbv zeta.
  destruct (first_failure env) as [error|] eqn:F.
  - destruct (connect_failure_run env s error F)
      as (s1 & k & R & _ & _ & _ & _ & Hn).
    rewrite R. cbn. auto.
  - unfold first_failure in F. unfold connectToGemini.
    destruct (new_inputContext env) as [ci|]; [|discriminate].
    destruct (new_outputContext env) as [co|]; [|discriminate].
    destruct (getUserMedia env) as [ms|]; [|discriminate].
    destruct (new_GoogleGenAI env) as [[]|]; [|discriminate].
    destruct (live_connect env) as [p|]; [|discriminate].
    erewrite try_catch_Normal by (steps; reflexivity).
    cbn. auto.
Qed.

Lemma handleDisconnect_playback s :
  let s' := final (handleDisconnect s) in
  nextStartTimeRef s' = nextStartTimeRef s /\
  (audioSourcesRef s' = audioSourcesRef s \/ audioSourcesRef s' = []).
Proof.
  cbv zeta. unfold handleDisconnect. rewrite step_gets.
  destruct (sessionPromiseRef s) as [p|]; [|cbn; auto].
  rewrite step_addLog. unfold await.
  destruct (settles_to p).
  - rewrite step_ret.
    erewrite step_known by apply cleanupAudio_run.
    steps. cbn. auto.
  - rewrite step_throw. cbn. auto.
Qed.

Lemma toggleMic_playback s :
  let s' := final (toggleMic s) in
  nextStartTimeRef s' = nextStartTimeRef s /\ audioSourcesRef s' = audioSourcesRef s.
Proof.
  cbv zeta. unfold toggleMic. rewrite step_gets.
  destruct (mediaStreamRef s) as [[[|t l]]|]; [cbn; auto | | cbn; auto].
  cbv zeta. steps. cbn. auto.
Qed.

Lemma onclose_playback s :
  nextStartTimeRef (final (onclose s)) = nextStartTimeRef s /\
  audioSourcesRef (final (onclose s)) = [].
Proof.
  unfold onclose. steps. rewrite cleanupAudio_run. cbn. auto.
Qed.

Lemma onerror_playback err s :
  nextStartTimeRef (final (onerror err s)) = nextStartTimeRef s /\
  audioSourcesRef (final (onerror err s)) = [].
Proof.
  unfold onerror. steps. rewrite cleanupAudio_run. cbn. auto.
Qed.

Lemma onmessage_quiet_playback scope msg env s :
  interrupted msg = false ->
  let s' := final (onmessage scope msg env s) in
  (nextStartTimeRef s <= nextStartTimeRef s')%Z /\
  (all_started s -> all_started s').
Proof.
  intros Hi. cbv zeta. rewrite onmessage_run, Hi.
  destruct (truthy (inlineData_data msg)) as [base64Audio|].
  - destruct (decode_outcome scope base64Audio) as [(e & Hf) | (b & Hd)].
    + erewrite then_nothing by (apply play_audio_failed; exact Hf).
      cbn. split; [lia | auto].
    + erewrite then_nothing by (apply play_audio_decoded; exact Hd).
      cbn [final nextStartTimeRef]. split; [unfold duration; lia|].
      intros Hs. apply Set_add_started; [discriminate | exact Hs].
  - rewrite step_ret. cbn. split; [lia | auto].
Qed.

Lemma onmessage_all_started scope msg env s :
  all_started s -> all_started (final (onmessage scope msg env s)).
Proof.
  intros Hs. destruct (interrupted msg) eqn:Hi.
  - destruct (onmessage_interrupted scope msg env s Hi Hs) as (_ & E & _).
    unfold all_started. rewrite E. constructor.
  - now apply onmessage_quiet_playback.
Qed.

Lemma final_then A B (m : M A) (b : B) s :
  final (bind m (fun _ => ret b) s) = final (m s).
Proof. unfold bind, ret. destruct (m s) as [c s' [a|e]]; reflexivity. Qed.

(** What the two halves of [onmessage] leave of the state. *)
Lemma after_audio_frame msg env s :
  let s' := final (after_audio msg env s) in
  connectionState s' = connectionState s /\
  (exists suffix, logs s' = logs s ++ suffix /\ by_system suffix) /\
  (all_started s -> all_started s') /\
  (interrupted msg = false -> nextStartTimeRef s' = nextStartTimeRef s).
Proof.
  cbv zeta. rewrite after_audio_run. destruct (interrupted msg).
  - destruct (interrupt_any env s) as (cs & s' & r & Ei & Hc & Hp & Hl & _).
    repeat split.
    + now rewrite Ei.
    + rewrite Ei. eexists; split; [exact Hl | repeat constructor].
    + intros Hs. rewrite (interrupt_run env s Hs). constructor.
    + discriminate.
  - cbn. repeat split; auto.
    exists []; split; [now rewrite app_nil_r | constructor].
Qed.

Lemma onmessage_arrive_frame scope msg env s :
  let s' := final (onmessage_arrive scope msg env s) in
  connectionState s' = connectionState s /\
  (exists suffix, logs s' = logs s ++ suffix /\ by_system suffix) /\
  (all_started s -> all_started s') /\
  (interrupted msg = false -> (nextStartTimeRef s <= nextStartTimeRef s')%Z).
Proof.
  cbv zeta. rewrite onmessage_arrive_run.
  destruct (truthy (inlineData_data msg)) as [base64Audio|].
  - cbv zeta. destruct (decode base64Audio) as [bytes|e].
    + cbn. repeat split; [|auto|lia].
      exists []; split; [now rewrite app_nil_r | constructor].
    + unfold after_calls. cbn [final]. rewrite final_then.
      match goal with |- context [after_audio msg env ?s1] =>
        destruct (after_audio_frame msg env s1) as (Hc & Hl & Ha & Hn) end.
      cbv zeta in Hc, Hl, Ha, Hn. repeat split.
      * exact Hc.
      * exact Hl.
      * exact Ha.
      * intros Hi. rewrite (Hn Hi). cbn. lia.
  - rewrite final_then.
    destruct (after_audio_frame msg env s) as (Hc & Hl & Ha & Hn).
    repeat split; auto. intros Hi. rewrite (Hn Hi). lia.
Qed.

Lemma onmessage_resume_frame scope msg env bytes s :
  let s' := final (onmessage_resume scope msg env bytes s) in
  connectionState s' = connectionState s /\
  (exists suffix, logs s' = logs s ++ suffix /\ by_system suffix) /\
  (all_started s -> all_started s') /\
  (interrupted msg = false -> (nextStartTimeRef s <= nextStartTimeRef s')%Z).
Proof.
  cbv zeta. unfold onmessage_resume.
  destruct (decodeAudioData bytes (outputCtx scope) 24000 1)
    as [audioBuffer|e] eqn:Ea.
  - erewrite step_known by
      (apply try_catch_Normal; apply audio_after_await_decoded; exact Ea).
    unfold after_calls. cbn [final].
    match goal with |- context [after_audio msg env ?s1] =>
      destruct (after_audio_frame msg env s1) as (Hc & Hl & Ha & Hn) end.
    cbv zeta in Hc, Hl, Ha, Hn. repeat split.
    + exact Hc.
    + exact Hl.
    + intros Hs. apply Ha. apply Set_add_started; [discriminate | exact Hs].
    + intros Hi. rewrite (Hn Hi). cbn. unfold duration. lia.
  - assert (T : try_catch (audio_after_await scope env bytes) audio_catch s =
                 mkOutcome [console_error ("Error decoding audio: " ++ message e)]
                   s (Normal tt))
      by (erewrite try_catch_Threw by (apply audio_after_await_failed; exact Ea);
          reflexivity).
    rewrite (step_known _ _ _ _ _ _ _ _ T).
    unfold after_calls. cbn [final].
    destruct (after_audio_frame msg env s) as (Hc & Hl & Ha & Hn).
    repeat split; auto. intros Hi. rewrite (Hn Hi). lia.
Qed.

Lemma dispatch_all_started ev s :
  all_started s -> all_started (final (dispatch ev s)).
Proof.
  unfold all_started. intros Hs.
  destruct ev as [env| | |scope t|scope msg env|scope msg env|scope msg env bytes| |err|inputData|id]; cbn [dispatch].
  - destruct (connectToGemini_playback env s) as (_ & [-> | ->]); [exact Hs|constructor].
  - destruct (handleDisconnect_playback s) as (_ & [-> | ->]); [exact Hs|constructor].
  - destruct (toggleMic_playback s) as (_ & ->). exact Hs.
  - unfold onopen. steps. exact Hs.
  - now apply onmessage_all_started.
  - rewrite final_then. now apply onmessage_arrive_frame.
  - now apply onmessage_resume_frame.
  - destruct (onclose_playback s) as (_ & ->). constructor.
  - destruct (onerror_playback err s) as (_ & ->). constructor.
  - rewrite onaudioprocess_run. exact Hs.
  - unfold onended. steps. cbn. unfold Set_delete. apply Forall_forall. intros n Hn.
    apply filter_In in Hn. rewrite Forall_forall in Hs. now apply Hs.
Qed.


Lemma run_all_started evs : forall s, all_started s -> all_started (run evs s).
Proof.
  induction evs as [|ev evs IH]; intros s Hs; [exact Hs|].
  cbn [run]. apply IH. now apply dispatch_all_started.
Qed.

End Playback.

(** ** The claims about the scheduler and the meter *)

Section Claims.
Context {utils : AudioUtilsImports}.

(** C1 (amended).  The handler of a message waits for the decoding of
    its payload, and other messages are handled meanwhile.  On arrival
    the cursor is raised to [max(cursor, clock)]; when the decoding is
    done the unit is started at the value the cursor has then, the
    cursor moves on by the buffer's duration, and the unit is in the
    active set.  For two buffers that arrive in order from cursor [t]
    and are decoded in that order: when the first is scheduled before
    the second arrives, the second starts at
    [max(max(t, clock1) + d1, clock2)], which is [t + d1] when the clock
    had not passed [t] at the first arrival nor [t + d1] at the second;
    when the second arrives while the first is being decoded, the
    first starts at [max(max(t, clock1), clock2)] and the second [d1]
    later, which is [t + d1] when the clock had not passed [t] at
    either arrival. *)
Theorem gapless_scheduling scope s msg1 env1 msg2 env2
    audio1 audio2 bytes1 bytes2 buffer1 buffer2 :
  truthy (inlineData_data msg1) = Some audio1 ->
  decode audio1 = Normal bytes1 ->
  decodeAudioData bytes1 (outputCtx scope) 24000 1 = Normal buffer1 ->
  interrupted msg1 = false ->
  truthy (inlineData_data msg2) = Some audio2 ->
  decode audio2 = Normal bytes2 ->
  decodeAudioData bytes2 (outputCtx scope) 24000 1 = Normal buffer2 ->
  interrupted msg2 = false ->
  let t := nextStartTimeRef s in
  let clock1 := currentTime_on_arrival env1 in
  let clock2 := currentTime_on_arrival env2 in
  let d1 := duration buffer1 in
  let d2 := duration buffer2 in
  (* the two halves of the first message, from any state *)
  (forall s0,
     onmessage_arrive scope msg1 env1 s0 =
     mkOutcome []
       (set_nextStartTimeRef (Z.max (nextStartTimeRef s0) clock1) s0)
       (Normal (Some bytes1))) /\
  (forall s0,
     let o := onmessage_resume scope msg1 env1 bytes1 s0 in
     let when := nextStartTimeRef s0 in
     completion o = Normal tt /\
     start_times (calls o) = [(new_source_id env1, when)] /\
     nextStartTimeRef (final o) = (when + d1)%Z /\
     audioSourcesRef (final o) =
       Set_add (mkSource (new_source_id env1) buffer1 (Some when))
         (audioSourcesRef s0) /\
     Set_has (new_source_id env1) (audioSourcesRef (final o)) = true) /\
  (* the first message is handled to its end before the second arrives *)
  (let o1 := onmessage scope msg1 env1 s in
   let o2 := onmessage scope msg2 env2 (final o1) in
   let start1 := Z.max t clock1 in
   let start2 := Z.max (start1 + d1) clock2 in
   (completion o1 = Normal tt /\
    start_times (calls o1) = [(new_source_id env1, start1)] /\
    nextStartTimeRef (final o1) = (start1 + d1)%Z /\
    audioSourcesRef (final o1) =
      Set_add (mkSource (new_source_id env1) buffer1 (Some start1))
        (audioSourcesRef s) /\
    Set_has (new_source_id env1) (audioSourcesRef (final o1)) = true) /\
   (completion o2 = Normal tt /\
    start_times (calls o2) = [(new_source_id env2, start2)] /\
    nextStartTimeRef (final o2) = (start2 + d2)%Z /\
    audioSourcesRef (final o2) =
      Set_add (mkSource (new_source_id env2) buffer2 (Some start2))
        (audioSourcesRef (final o1)) /\
    Set_has (new_source_id env2) (audioSourcesRef (final o2)) = true) /\
   ((clock1 <= t)%Z -> (clock2 <= t + d1)%Z -> start2 = (t + d1)%Z)) /\
  (* the second message arrives while the first is being decoded *)
  (let a1 := onmessage_arrive scope msg1 env1 s in
   let a2 := onmessage_arrive scope msg2 env2 (final a1) in
   let r1 := onmessage_resume scope msg1 env1 bytes1 (final a2) in
   let r2 := onmessage_resume scope msg2 env2 bytes2 (final r1) in
   let start1 := Z.max (Z.max t clock1) clock2 in
   let start2 := (start1 + d1)%Z in
   (calls a1 = [] /\ calls a2 = [] /\
    nextStartTimeRef (final a1) = Z.max t clock1 /\
    nextStartTimeRef (final a2) = start1) /\
   (completion r1 = Normal tt /\
    start_times (calls r1) = [(new_source_id env1, start1)] /\
    nextStartTimeRef (final r1) = (start1 + d1)%Z /\
    audioSourcesRef (final r1) =
      Set_add (mkSource (new_source_id env1) buffer1 (Some start1))
        (audioSourcesRef s)) /\
   (completion r2 = Normal tt /\
    start_times (calls r2) = [(new_source_id env2, start2)] /\
    nextStartTimeRef (final r2) = (start2 + d2)%Z /\
    audioSourcesRef (final r2) =
      Set_add (mkSource (new_source_id env2) buffer2 (Some start2))
        (audioSourcesRef (final r1))) /\
   ((clock1 <= t)%Z -> (clock2 <= t)%Z -> start2 = (t + d1)%Z)).
Proof.
  intros Et1 Eb1 Ea1 Hi1 Et2 Eb2 Ea2 Hi2. cbv zeta.
  assert (Hd1 : decodes_to scope audio1 buffer1) by (exists bytes1; auto).
  assert (Hd2 : decodes_to scope audio2 buffer2) by (exists bytes2; auto).
  split; [intros s0; exact (arrive_suspends scope msg1 env1 s0 audio1 bytes1 Et1 Eb1)|].
  split; [intros s0; exact (resume_schedules scope msg1 env1 bytes1 buffer1 s0 Ea1 Hi1)|].
  split.
  - pose proof (schedule_buffer scope msg1 env1 s audio1 buffer1 Et1 Hd1 Hi1) as H1.
    cbv zeta in H1. destruct H1 as (C1 & S1 & N1 & A1 & M1).
    pose proof (schedule_buffer scope msg2 env2
                  (final (onmessage scope msg1 env1 s)) audio2 buffer2 Et2 Hd2 Hi2) as H2.
    cbv zeta in H2. rewrite N1 in H2.
    split; [repeat split; assumption|].
    split; [exact H2|].
    intros L1 L2. lia.
  - rewrite (arrive_suspends scope msg1 env1 s audio1 bytes1 Et1 Eb1). cbn [final calls].
    rewrite (arrive_suspends scope msg2 env2 _ audio2 bytes2 Et2 Eb2). cbn [final calls].
    match goal with |- context [onmessage_resume scope msg1 env1 bytes1 ?s2] =>
      pose proof (resume_schedules scope msg1 env1 bytes1 buffer1 s2 Ea1 Hi1) as H1;
      cbv zeta in H1; destruct H1 as (C1 & S1 & N1 & A1 & _);
      pose proof (resume_schedules scope msg2 env2 bytes2 buffer2
                    (final (onmessage_resume scope msg1 env1 bytes1 s2)) Ea2 Hi2) as H2;
      cbv zeta in H2; destruct H2 as (C2 & S2 & N2 & A2 & _)
    end.
    rewrite N1 in S2, N2, A2. cbn [nextStartTimeRef set_nextStartTimeRef] in *.
    split; [repeat split|].
    split; [repeat split; assumption|].
    split; [repeat split; assumption|].
    intros L1 L2. lia.
Qed.

(** C2.  After a message that carries the interruption flag the active
    set is empty and the cursor is the clock value read then; every
    unit that was in the set has been stopped. *)
Theorem interruption_clears_playback scope msg env s :
  interrupted msg = true -> all_started s ->
  let o := onmessage scope msg env s in
  completion o = Normal tt /\
  audioSourcesRef (final o) = [] /\
  nextStartTimeRef (final o) = currentTime_on_interrupt env /\
  (forall n, In n (audioSourcesRef s) ->
     In (BufferSource_stop (node_id n)) (calls o)).
Proof. exact (onmessage_interrupted scope msg env s). Qed.


(** C7.  A payload that fails to decode is reported on the console and
    dropped: no unit is scheduled, the connection state and the session
    handle are untouched, and the user log gains nothing from the
    failure (its only possible new entry is that of an interruption
    flag carried by the same message). *)
Theorem decode_failure_is_dropped scope msg env s base64Audio e :
  truthy (inlineData_data msg) = Some base64Audio ->
  decode_fails scope base64Audio e ->
  let o := onmessage scope msg env s in
  connectionState (final o) = connectionState s /\
  sessionPromiseRef (final o) = sessionPromiseRef s /\
  logs (final o) =
    logs s ++ (if interrupted msg then [mkLog system "User interrupted AI."] else []) /\
  console_errors (calls o) = ["Error decoding audio: " ++ message e]%string /\
  start_times (calls o) = [] /\
  (interrupted msg = false ->
     completion o = Normal tt /\
     calls o = [console_error ("Error decoding audio: " ++ message e)] /\
     final o = set_nextStartTimeRef
                 (Z.max (nextStartTimeRef s) (currentTime_on_arrival env)) s) /\
  (all_started s -> completion o = Normal tt).
Proof.
  intros Et Hf. cbv zeta. rewrite onmessage_run, Et.
  erewrite step_known by (apply play_audio_failed; exact Hf).
  set (s1 := set_nextStartTimeRef _ s).
  destruct (interrupted msg).
  - destruct (interrupt_any env s1) as (cs & s' & c & E & Hcs & Hsp & Hl & Hc & Ht).
    rewrite E, after_calls_outcome. cbn [completion final calls].
    rewrite Hcs, Hsp, Hl, console_errors_app, Hc.
    unfold start_times in *. rewrite flat_map_app, Ht.
    repeat split; try discriminate.
    intros Hs. rewrite (interrupt_run env s1 Hs) in E.
    injection E as _ _ <-. reflexivity.
  - unfold ret. rewrite after_calls_outcome. cbn. rewrite app_nil_r. repeat split.
Qed.

(** C8 (the code against the claim).  The published volume is the
    frame's RMS times five; a silent frame of 4096 samples gives 0, and
    a full-scale frame of 4096 samples gives 5, which is above 1. *)
Theorem input_volume_exceeds_one :
  (forall inputData s,
     volume (final (onaudioprocess inputData s)) = input_volume inputData) /\
  input_volume (repeat 0%float 4096) = 0%float /\
  input_volume (repeat 1%float 4096) = 5%float /\
  PrimFloat.ltb 1 (input_volume (repeat 1%float 4096)) = true.
Proof.
  split; [|repeat split; vm_compute; reflexivity].
  intros inputData s. rewrite onaudioprocess_run. reflexivity.
Qed.

End Claims.

(** *** The statements at concrete inputs *)

Lemma two_silent_samples_decode :
  @decodes_to spec_utils demo_scope two_silent_samples (mkBuffer [0; 0]%float).
Proof. exists [0; 0; 0; 0]%Z. split; reflexivity. Qed.

Lemma gapless_scheduling_witness :
  let a1 := @onmessage_arrive spec_utils demo_scope audio_message (at_clock 0 1) initial in
  let a2 := @onmessage_arrive spec_utils demo_scope audio_message (at_clock 5 2)
              (final a1) in
  let r1 := @onmessage_resume spec_utils demo_scope audio_message (at_clock 0 1)
              [0; 0; 0; 0]%Z (final a2) in
  let r2 := @onmessage_resume spec_utils demo_scope audio_message (at_clock 5 2)
              [0; 0; 0; 0]%Z (final r1) in
  start_times (calls r1) = [(1%nat, 5%Z)] /\
  start_times (calls r2) = [(2%nat, 7%Z)].
Proof.
  pose proof (@gapless_scheduling spec_utils demo_scope initial
                audio_message (at_clock 0 1) audio_message (at_clock 5 2)
                two_silent_samples two_silent_samples
                [0; 0; 0; 0]%Z [0; 0; 0; 0]%Z
                (mkBuffer [0; 0]%float) (mkBuffer [0; 0]%float)
                eq_refl eq_refl eq_refl eq_refl eq_refl eq_refl eq_refl eq_refl)
    as (_ & _ & _ & _ & (_ & S1 & _) & (_ & S2 & _) & _).
  split; [exact S1 | exact S2].
Defined.

(** C1 as stated fails: from cursor 0 a buffer of duration 2 arrives at
    clock 0, the next one at clock 5; the second starts at 5, not at
    0 + 2. *)
Lemma gapless_start_counterexample :
  let o1 := @onmessage spec_utils demo_scope audio_message (at_clock 0 1) initial in
  let o2 := @onmessage spec_utils demo_scope audio_message (at_clock 5 2) (final o1) in
  nextStartTimeRef initial = 0%Z /\
  start_times (calls o1) = [(1%nat, 0%Z)] /\
  nextStartTimeRef (final o1) = 2%Z /\
  start_times (calls o2) = [(2%nat, 5%Z)] /\
  5%Z <> (0 + 2)%Z.
Proof. vm_compute. repeat split; discriminate. Qed.

Lemma two_playing_started : all_started two_playing.
Proof. repeat constructor; discriminate. Qed.

Lemma interruption_clears_playback_witness :
  audioSourcesRef
    (final (@onmessage spec_utils demo_scope interruption_message
              (at_clock 50 3) two_playing)) = [] /\
  nextStartTimeRef
    (final (@onmessage spec_utils demo_scope interruption_message
              (at_clock 50 3) two_playing)) = 50%Z.
Proof.
  pose proof (@interruption_clears_playback spec_utils demo_scope
                interruption_message (at_clock 50 3) two_playing
                eq_refl two_playing_started) as (_ & E & N & _).
  split; [exact E | exact N].
Defined.



Lemma connect_failure_is_caught_witness :
  connectionState (final (connectToGemini permission_denied initial)) = ERROR /\
  logs (final (connectToGemini permission_denied initial)) =
    [ mkLog system "Initializing audio contexts...";
      mkLog system "Requesting microphone access...";
      mkLog system "Failed to connect: Permission denied" ].
Proof.
  pose proof (connect_failure_is_caught permission_denied initial
                (mkError "Permission denied") eq_refl) as (_ & E & _).
  split; [exact E | reflexivity].
Defined.

Lemma corrupt_payload_fails :
  @decode_fails spec_utils demo_scope "!!!" (mkError "FormatError").
Proof. left. reflexivity. Qed.

Lemma decode_failure_is_dropped_witness :
  logs (final (@onmessage spec_utils demo_scope corrupt_message
                 (at_clock 5 3) two_playing)) = logs two_playing /\
  calls (@onmessage spec_utils demo_scope corrupt_message (at_clock 5 3) two_playing)
    = [console_error "Error decoding audio: FormatError"].
Proof.
  pose proof (@decode_failure_is_dropped spec_utils demo_scope corrupt_message
                (at_clock 5 3) two_playing "!!!" (mkError "FormatError")
                eq_refl corrupt_payload_fails)
    as (_ & _ & L & _ & _ & Q & _).
  destruct (Q eq_refl) as (_ & C & _).
  split; [rewrite L; apply app_nil_r | exact C].
Defined.

Lemma toggleMic_flips_track_flag_only_witness :
  isMicOn (final (toggleMic two_playing)) = false /\
  calls (@onaudioprocess spec_utils [0; 0]%float (final (toggleMic two_playing)))
    = [Session_sendRealtimeInput (mkSession 1) (@createBlob spec_utils [0; 0]%float)].
Proof.
  pose proof (@toggleMic_flips_track_flag_only spec_utils two_playing
                (mkStream [mkTrack true live]) (mkTrack true live) []
                eq_refl eq_refl) as (_ & _ & E & _ & _ & P).
  split.
  - rewrite E. reflexivity.
  - destruct (P [0; 0]%float) as (_ & _ & _ & S).
    exact (S (mkPromise (Fulfilled (mkSession 1))) (mkSession 1) eq_refl eq_refl).
Defined.

(** C9 as stated fails: after connect, open, mute, disconnect, connect
    and open the client is [CONNECTED] with the indicator off and the
    new track enabled; a toggle then disables the track and leaves
    the indicator as it was. *)
Lemma mic_indicator_not_flipped_counterexample :
  let s := @run spec_utils
             [Click_connect connect_ok; Session_onopen demo_scope 0;
              Click_toggleMic; Click_disconnect;
              Click_connect connect_ok; Session_onopen demo_scope 0]
             initial in
  let o := toggleMic s in
  connectionState s = CONNECTED /\
  isMicOn s = false /\
  mediaStreamRef s = Some (mkStream [mkTrack true live]) /\
  mediaStreamRef (final o) = Some (mkStream [mkTrack false live]) /\
  isMicOn (final o) = isMicOn s.
Proof. vm_compute. repeat split. Qed.

Lemma handleDisconnect_local_only_witness :
  connectionState (final (handleDisconnect two_playing)) = DISCONNECTED /\
  sessionPromiseRef (final (handleDisconnect two_playing)) = None.
Proof.
  destruct (proj1 (proj2 handleDisconnect_local_only) two_playing
              (mkPromise (Fulfilled (mkSession 1))) (mkSession 1) eq_refl eq_refl)
    as (_ & E & _).
  rewrite E. split; reflexivity.
Defined.

(** C10 as stated fails: with a session promise that is rejected
    [handleDisconnect] throws at its [await]; the cleanup is not run,
    the state stays [CONNECTED] and the session handle is kept. *)
Lemma disconnect_without_cleanup_counterexample :
  let o := handleDisconnect session_rejected in
  sessionPromiseRef session_rejected <> None /\
  completion o = Threw (mkError "socket closed") /\
  calls o = [] /\
  connectionState (final o) = CONNECTED /\
  sessionPromiseRef (final o) = sessionPromiseRef session_rejected /\
  mediaStreamRef (final o) = mediaStreamRef session_rejected /\
  audioSourcesRef (final o) = audioSourcesRef session_rejected /\
  audioSourcesRef (final o) <> [].
Proof. vm_compute. repeat split; discriminate. Qed.

(** *** Further properties of the handlers *)

Lemma by_system_progress k : by_system (firstn k connect_progress).
Proof. do 4 (destruct k as [|k]; [repeat constructor|]). repeat constructor. Qed.

Lemma connectToGemini_succeeds env s ci co ms p :
  new_inputContext env = Normal ci -> new_outputContext env = Normal co ->
  getUserMedia env = Normal ms -> new_GoogleGenAI env = Normal tt ->
  live_connect env = Normal p ->
  connectToGemini env s =
  mkOutcome []
    (mkApp CONNECTING (logs s ++ connect_progress) (isMicOn s) (volume s) (aiVolume s)
       (Some ci) (Some co) (Some ms) (processorRef s) (sourceNodeRef s) (Some p)
       (nextStartTimeRef s) (audioSourcesRef s))
    (Normal tt).
Proof.
  intros E1 E2 E3 E4 E5. unfold connectToGemini.
  apply try_catch_Normal. rewrite E1, E2, E3, E4, E5. steps.
  unfold modify. cbn. rewrite <- !app_assoc. reflexivity.
Qed.

Lemma no_failure_succeeds env :
  first_failure env = None ->
  exists ci co ms p,
    new_inputContext env = Normal ci /\ new_outputContext env = Normal co /\
    getUserMedia env = Normal ms /\ new_GoogleGenAI env = Normal tt /\
    live_connect env = Normal p.
Proof.
  unfold first_failure.
  destruct (new_inputContext env) as [ci|]; [|discriminate].
  destruct (new_outputContext env) as [co|]; [|discriminate].
  destruct (getUserMedia env) as [ms|]; [|discriminate].
  destruct (new_GoogleGenAI env) as [[]|]; [|discriminate].
  destruct (live_connect env) as [p|]; [|discriminate].
  intros _. exists ci, co, ms, p. repeat split.
Qed.

Lemma handleDisconnect_rejected_run s p e :
  sessionPromiseRef s = Some p -> settles_to p = Rejected e ->
  handleDisconnect s =
  mkOutcome [] (setLogs (logs s ++ [mkLog system "Disconnecting..."]) s) (Threw e).
Proof.
  intros E Hp. unfold handleDisconnect. rewrite step_gets, E, step_addLog.
  unfold await. rewrite Hp, step_throw. reflexivity.
Qed.

(** C6 (the code departs from it).  A failure to open the session
    arrives as the rejection of the promise that [ai.live.connect]
    returned; the promise is stored, not awaited, so the [catch] of
    [connectToGemini] never sees it.  The handler completes normally,
    the state stays [CONNECTING], the log holds the three progress
    lines and no failure entry, the contexts and the stream are still
    held, and the rejection is thrown only later, out of
    [handleDisconnect], which then releases nothing either. *)
Theorem session_open_failure_is_not_caught
    (env : ConnectEnv) (s : App) (p : SessionPromise) (e : JsError) :
  first_failure env = None ->
  live_connect env = Normal p -> settles_to p = Rejected e ->
  let o := connectToGemini env s in
  completion o = Normal tt /\ calls o = [] /\
  connectionState (final o) = CONNECTING /\
  logs (final o) = logs s ++ connect_progress /\
  filter describes_failure connect_progress = [] /\
  (inputAudioContextRef (final o) = value_of (new_inputContext env) /\
   outputAudioContextRef (final o) = value_of (new_outputContext env) /\
   mediaStreamRef (final o) = value_of (getUserMedia env) /\
   inputAudioContextRef (final o) <> None /\
   outputAudioContextRef (final o) <> None /\
   mediaStreamRef (final o) <> None) /\
  sessionPromiseRef (final o) = Some p /\
  (let o' := handleDisconnect (final o) in
   completion o' = Threw e /\ calls o' = [] /\
   connectionState (final o') = CONNECTING /\
   mediaStreamRef (final o') = mediaStreamRef (final o) /\
   inputAudioContextRef (final o') = inputAudioContextRef (final o) /\
   outputAudioContextRef (final o') = outputAudioContextRef (final o)).
Proof.
  intros F Ep Hp. cbv zeta.
  destruct (no_failure_succeeds env F) as (ci & co & ms & p' & E1 & E2 & E3 & E4 & E5).
  assert (p' = p) by congruence. subst p'.
  rewrite (connectToGemini_succeeds env s ci co ms p E1 E2 E3 E4 E5).
  cbn [completion final calls connectionState logs inputAudioContextRef
       outputAudioContextRef mediaStreamRef sessionPromiseRef].
  rewrite E1, E2, E3. cbn [value_of].
  split; [reflexivity|]. split; [reflexivity|]. split; [reflexivity|].
  split; [reflexivity|]. split; [reflexivity|].
  split; [repeat split; discriminate|]. split; [reflexivity|].
  erewrite handleDisconnect_rejected_run by (try exact Hp; reflexivity).
  repeat split.
Qed.

Lemma session_open_failure_is_not_caught_witness :
  let o := connectToGemini session_never_opens initial in
  completion o = Normal tt /\
  connectionState (final o) = CONNECTING /\
  logs (final o) = connect_progress /\
  completion (handleDisconnect (final o)) = Threw (mkError "socket closed").
Proof.
  pose proof (session_open_failure_is_not_caught session_never_opens initial
                (mkPromise (Rejected (mkError "socket closed")))
                (mkError "socket closed") eq_refl eq_refl eq_refl)
    as (C & _ & E & L & _ & _ & _ & (T & _)).
  cbv zeta. split; [exact C|]. split; [exact E|]. split; [exact L | exact T].
Defined.

Lemma handleDisconnect_fulfilled_run s p session :
  sessionPromiseRef s = Some p -> settles_to p = Fulfilled session ->
  handleDisconnect s =
  mkOutcome (cleanup_calls s)
    (mkApp DISCONNECTED (logs s ++ [mkLog system "Disconnecting..."]) (isMicOn s)
       0%float 0%float None None None None None None (nextStartTimeRef s) [])
    (Normal tt).
Proof.
  intros E Hp. unfold handleDisconnect. rewrite step_gets, E, step_addLog.
  unfold await. rewrite Hp, step_ret.
  erewrite step_known by apply cleanupAudio_run.
  steps. unfold modify. rewrite after_calls_outcome, app_nil_r. reflexivity.
Qed.

Lemma handleDisconnect_none_run s :
  sessionPromiseRef s = None -> handleDisconnect s = mkOutcome [] s (Normal tt).
Proof.
  intros E. unfold handleDisconnect. rewrite step_gets, E. reflexivity.
Qed.

Lemma onclose_run s :
  onclose s =
  mkOutcome (cleanup_calls s)
    (mkApp DISCONNECTED (logs s ++ [mkLog system "Session closed."]) (isMicOn s)
       0%float 0%float None None None None None (sessionPromiseRef s)
       (nextStartTimeRef s) [])
    (Normal tt).
Proof. unfold onclose. steps. rewrite cleanupAudio_run. reflexivity. Qed.

Lemma onerror_run err s :
  onerror err s =
  mkOutcome (console_error (message err) :: cleanup_calls s)
    (mkApp ERROR
       (logs s ++
        [mkLog system
           ("Error: " ++ (if String.eqb (message err) EmptyString then "Unknown error"
                          else message err))])
       (isMicOn s) 0%float 0%float None None None None None (sessionPromiseRef s)
       (nextStartTimeRef s) [])
    (Normal tt).
Proof. unfold onerror. steps. rewrite cleanupAudio_run. reflexivity. Qed.

Lemma onopen_run scope currentTime s :
  onopen scope currentTime s =
  mkOutcome
    [Processor_set_onaudioprocess true;
     AudioNode_connect StreamSourceNode ProcessorNode;
     AudioNode_connect ProcessorNode (Destination (inputCtx scope))]
    (mkApp CONNECTED
       (logs s ++ [mkLog system "Connected! Start speaking to CodeCompanion."])
       (isMicOn s) (volume s) (aiVolume s)
       (inputAudioContextRef s) (outputAudioContextRef s) (mediaStreamRef s)
       (Some (mkProcessor 4096)) (Some (mkStreamSource (inputCtx scope)))
       (sessionPromiseRef s) currentTime (audioSourcesRef s))
    (Normal tt).
Proof. unfold onopen. steps. reflexivity. Qed.

Lemma onended_run id s :
  onended id s =
  mkOutcome []
    (setAiVolume 0%float
       (set_audioSourcesRef (Set_delete id (audioSourcesRef s)) s))
    (Normal tt).
Proof. unfold onended. steps. reflexivity. Qed.

Lemma toggleMic_nothing s :
  (mediaStreamRef s = None \/ mediaStreamRef s = Some (mkStream [])) ->
  toggleMic s = mkOutcome [] s (Normal tt).
Proof.
  intros [E|E]; unfold toggleMic; rewrite step_gets, E; reflexivity.
Qed.

Lemma toggleMic_run s audioTrack others :
  mediaStreamRef s = Some (mkStream (audioTrack :: others)) ->
  toggleMic s =
  mkOutcome []
    (mkApp (connectionState s)
       (logs s ++ [mkLog system (if negb (enabled audioTrack)
                                 then "Microphone unmuted."
                                 else "Microphone muted.")])
       (negb (enabled audioTrack)) (volume s) (aiVolume s)
       (inputAudioContextRef s) (outputAudioContextRef s)
       (Some (mkStream (mkTrack (negb (enabled audioTrack))
                          (readyState audioTrack) :: others)))
       (processorRef s) (sourceNodeRef s) (sessionPromiseRef s)
       (nextStartTimeRef s) (audioSourcesRef s))
    (Normal tt).
Proof.
  intros E. unfold toggleMic. rewrite step_gets, E. cbn [getAudioTracks].
  cbv zeta. steps. reflexivity.
Qed.

Lemma existsb_same_node x l :
  existsb (same_node x) l = Set_has (node_id x) l.
Proof.
  unfold Set_has, same_node. induction l as [|y l IH]; [reflexivity|].
  cbn [existsb]. now rewrite IH, (Nat.eqb_sym (node_id x) (node_id y)).
Qed.

Lemma Set_delete_absent id l : Set_has id l = false -> Set_delete id l = l.
Proof.
  unfold Set_has, Set_delete. induction l as [|y l IH]; [reflexivity|].
  cbn [existsb filter]. intros H. apply orb_false_iff in H. destruct H as [Hy Hl].
  rewrite Hy. cbn [negb]. now rewrite (IH Hl).
Qed.

Lemma Set_delete_add_fresh x l :
  Set_has (node_id x) l = false -> Set_delete (node_id x) (Set_add x l) = l.
Proof.
  intros H. unfold Set_add. rewrite existsb_same_node, H.
  unfold Set_delete. rewrite filter_app. cbn [filter].
  rewrite Nat.eqb_refl. cbn [negb]. rewrite app_nil_r.
  now apply Set_delete_absent.
Qed.


Section Extras.
Context {utils : AudioUtilsImports}.

Lemma onmessage_without_audio scope msg env s :
  truthy (inlineData_data msg) = None -> interrupted msg = false ->
  onmessage scope msg env s = mkOutcome [] s (Normal tt).
Proof.
  intros Et Hi. rewrite onmessage_run, Et, Hi, step_ret. reflexivity.
Qed.

Lemma onmessage_completes scope msg env s :
  all_started s -> completion (onmessage scope msg env s) = Normal tt.
Proof.
  intros Hs. destruct (interrupted msg) eqn:Hi.
  - now destruct (onmessage_interrupted scope msg env s Hi Hs) as (C & _).
  - rewrite onmessage_run, Hi.
    destruct (truthy (inlineData_data msg)) as [base64Audio|].
    + destruct (decode_outcome scope base64Audio) as [(e & Hf) | (b & Hd)].
      * erewrite then_nothing by (apply play_audio_failed; exact Hf). reflexivity.
      * erewrite then_nothing by (apply play_audio_decoded; exact Hd). reflexivity.
    + rewrite step_ret. reflexivity.
Qed.

(** What one run of [onmessage] leaves of the connection state, the
    session handle and the log. *)
Lemma onmessage_frame scope msg env s :
  let s' := final (onmessage scope msg env s) in
  connectionState s' = connectionState s /\
  sessionPromiseRef s' = sessionPromiseRef s /\
  logs s' =
    logs s ++ (if interrupted msg then [mkLog system "User interrupted AI."] else []).
Proof.
  cbv zeta. rewrite onmessage_run.
  assert (P : exists c s1,
    match truthy (inlineData_data msg) with
    | Some base64Audio => play_audio scope base64Audio env
    | None => ret tt
    end s = mkOutcome c s1 (Normal tt) /\
    connectionState s1 = connectionState s /\
    sessionPromiseRef s1 = sessionPromiseRef s /\ logs s1 = logs s).
  { destruct (truthy (inlineData_data msg)) as [base64Audio|].
    - destruct (decode_outcome scope base64Audio) as [(e & Hf) | (b & Hd)].
      + rewrite (play_audio_failed scope base64Audio env s e Hf).
        do 2 eexists. split; [reflexivity|]. repeat split.
      + rewrite (play_audio_decoded scope base64Audio env s b Hd).
        do 2 eexists. split; [reflexivity|]. repeat split.
    - do 2 eexists. split; [reflexivity|]. repeat split. }
  destruct P as (c & s1 & E & Hc & Hp & Hl).
  erewrite step_known by exact E.
  destruct (interrupted msg).
  - destruct (interrupt_any env s1) as (cs & s' & r & Ei & Hcs & Hsp & Hlg & _).
    rewrite Ei, after_calls_outcome. cbn [final].
    rewrite Hcs, Hsp, Hlg, Hc, Hp, Hl. repeat split.
  - unfold ret. rewrite after_calls_outcome. cbn [final].
    rewrite Hc, Hp, Hl, app_nil_r. repeat split.
Qed.

Lemma dispatch_logs ev s :
  exists suffix,
    logs (final (dispatch ev s)) = logs s ++ suffix /\ by_system suffix.
Proof.
  destruct ev as [env| | |scope t|scope msg env|scope msg env|scope msg env bytes| |err|inputData|id]; cbn [dispatch].
  - destruct (first_failure env) as [error|] eqn:F.
    + destruct (connect_failure_run env s error F) as (s1 & k & R & Hl & _).
      rewrite R. cbn [final released logs setConnectionState setLogs]. rewrite Hl.
      exists (firstn k connect_progress ++ [connect_failure_entry error]).
      split; [now rewrite app_assoc|].
      apply Forall_app. split; [apply by_system_progress | repeat constructor].
    + destruct (no_failure_succeeds env F) as (ci & co & ms & p & E1 & E2 & E3 & E4 & E5).
      rewrite (connectToGemini_succeeds env s ci co ms p E1 E2 E3 E4 E5).
      exists connect_progress. split; [reflexivity | repeat constructor].
  - destruct (sessionPromiseRef s) as [p|] eqn:E.
    + destruct (settles_to p) as [session|e] eqn:Hp.
      * rewrite (handleDisconnect_fulfilled_run s p session E Hp).
        eexists. split; [reflexivity | repeat constructor].
      * rewrite (handleDisconnect_rejected_run s p e E Hp).
        eexists. split; [reflexivity | repeat constructor].
    + rewrite (handleDisconnect_none_run s E).
      exists []. split; [now rewrite app_nil_r | constructor].
  - destruct (mediaStreamRef s) as [[[|t l]]|] eqn:E.
    + rewrite (toggleMic_nothing s (or_intror E)).
      exists []. split; [now rewrite app_nil_r | constructor].
    + rewrite (toggleMic_run s t l E).
      eexists. split; [reflexivity | repeat constructor].
    + rewrite (toggleMic_nothing s (or_introl E)).
      exists []. split; [now rewrite app_nil_r | constructor].
  - rewrite onopen_run. eexists. split; [reflexivity | repeat constructor].
  - destruct (onmessage_frame scope msg env s) as (_ & _ & ->).
    eexists. split; [reflexivity|]. destruct (interrupted msg); repeat constructor.
  - rewrite final_then. now apply onmessage_arrive_frame.
  - now apply onmessage_resume_frame.
  - rewrite onclose_run. eexists. split; [reflexivity | repeat constructor].
  - rewrite onerror_run. eexists. split; [reflexivity | repeat constructor].
  - rewrite onaudioprocess_run. exists []. split; [now rewrite app_nil_r | constructor].
  - rewrite onended_run. exists []. split; [cbn; now rewrite app_nil_r | constructor].
Qed.

End Extras.

Section MoreProperties.
Context {utils : AudioUtilsImports}.

(** X1.  Whatever events the component has handled since it was
    mounted, every unit of the active set has been started, so the
    unguarded [source.stop()] of the interruption branch cannot throw:
    [onmessage] completes normally on every message. *)
Theorem reachable_units_started (evs : list Event) :
  all_started (run evs initial) /\
  forall scope msg env,
    completion (onmessage scope msg env (run evs initial)) = Normal tt.
Proof.
  assert (H : all_started (run evs initial))
    by (apply run_all_started; constructor).
  split; [exact H|]. intros scope msg env. now apply onmessage_completes.
Qed.

(** X2.  The log is append-only and written by the system only: after
    any run of events the log is the old log followed by new entries,
    each with sender [system]. *)
Theorem log_append_only (evs : list Event) (s : App) :
  exists suffix, logs (run evs s) = logs s ++ suffix /\ by_system suffix.
Proof.
  revert s. induction evs as [|ev evs IH]; intros s.
  - exists []. split; [cbn; now rewrite app_nil_r | constructor].
  - cbn [run]. destruct (dispatch_logs ev s) as (a & Ea & Ha).
    destruct (IH (final (dispatch ev s))) as (b & Eb & Hb).
    exists (a ++ b). split.
    + now rewrite Eb, Ea, app_assoc.
    + apply Forall_app. split; assumption.
Qed.

(** X13.  A message with no audio payload (none at all, or the empty
    string) and no interruption flag changes nothing and calls
    nothing, whatever its turn-completion flag. *)
Theorem message_without_audio_is_ignored scope msg env s :
  inlineData_data msg = None \/ inlineData_data msg = Some EmptyString ->
  interrupted msg = false ->
  onmessage scope msg env s = mkOutcome [] s (Normal tt).
Proof.
  intros H Hi. apply onmessage_without_audio; [|exact Hi].
  destruct H as [-> | ->]; reflexivity.
Qed.

(** X14.  When one message carries both audio and the interruption
    flag, the audio is handled first: its unit is started and then
    stopped within the same run of the handler, the active set ends
    empty and the cursor ends at the clock, not after the buffer. *)
Theorem interrupting_message_with_audio scope msg env s base64Audio audioBuffer :
  truthy (inlineData_data msg) = Some base64Audio ->
  decodes_to scope base64Audio audioBuffer ->
  interrupted msg = true -> all_started s ->
  let o := onmessage scope msg env s in
  let when := Z.max (nextStartTimeRef s) (currentTime_on_arrival env) in
  let node := mkSource (new_source_id env) audioBuffer (Some when) in
  calls o =
    play_calls scope (new_source_id env) when ++
    stop_calls (Set_add node (audioSourcesRef s)) /\
  In (BufferSource_start (new_source_id env) when) (calls o) /\
  (Set_has (new_source_id env) (audioSourcesRef s) = false ->
   In (BufferSource_stop (new_source_id env)) (calls o)) /\
  audioSourcesRef (final o) = [] /\
  nextStartTimeRef (final o) = currentTime_on_interrupt env.
Proof.
  intros Et Hd Hi Hs. cbv zeta. rewrite onmessage_run, Et, Hi.
  erewrite step_known by (apply play_audio_decoded; exact Hd).
  match goal with |- context [interrupt env ?s1] =>
    assert (Hs1 : all_started s1) by
      (apply Set_add_started; [discriminate | exact Hs]);
    rewrite (interrupt_run env s1 Hs1)
  end.
  rewrite after_calls_outcome.
  cbn [completion final calls audioSourcesRef nextStartTimeRef].
  split; [reflexivity|]. split; [|split; [|split; reflexivity]].
  - apply in_or_app. left. unfold play_calls.
    do 2 (apply in_or_app; right). now left.
  - intros Hf. apply in_or_app. right.
    set (node := mkSource (new_source_id env) audioBuffer _).
    change (new_source_id env) with (node_id node).
    apply stop_calls_In; [|discriminate].
    unfold Set_add. rewrite existsb_same_node. cbn [node_id node]. rewrite Hf.
    apply in_or_app. right. now left.
Qed.

(** X12.  Scheduling a unit with a fresh identity and then handling
    its ['ended'] event brings the active set back to what it was and
    sets the AI volume to 0; the cursor keeps the advance. *)
Theorem ended_after_schedule scope msg env s base64Audio audioBuffer :
  truthy (inlineData_data msg) = Some base64Audio ->
  decodes_to scope base64Audio audioBuffer ->
  interrupted msg = false ->
  Set_has (new_source_id env) (audioSourcesRef s) = false ->
  let s1 := final (onmessage scope msg env s) in
  let o := onended (new_source_id env) s1 in
  completion o = Normal tt /\ calls o = [] /\
  audioSourcesRef (final o) = audioSourcesRef s /\
  aiVolume (final o) = 0%float /\
  nextStartTimeRef (final o) =
    (Z.max (nextStartTimeRef s) (currentTime_on_arrival env) + duration audioBuffer)%Z.
Proof.
  intros Et Hd Hi Hf. cbv zeta.
  destruct (schedule_buffer scope msg env s base64Audio audioBuffer Et Hd Hi)
    as (_ & _ & N & A & _).
  rewrite onended_run. cbn [completion calls final audioSourcesRef aiVolume
    nextStartTimeRef setAiVolume set_audioSourcesRef].
  rewrite A, N. repeat split.
  exact (Set_delete_add_fresh (mkSource (new_source_id env) audioBuffer _) _ Hf).
Qed.

(** X9.  A captured frame only ever changes the input volume and never
    throws; it is sent to the session exactly when a session promise
    exists and is fulfilled, and is dropped silently when there is no
    promise or the promise was rejected. *)
Theorem frame_is_sent_only_to_a_live_session (inputData : list float) (s : App) :
  let o := onaudioprocess inputData s in
  completion o = Normal tt /\
  final o = setVolume (input_volume inputData) s /\
  (sessionPromiseRef s = None -> calls o = []) /\
  (forall p e, sessionPromiseRef s = Some p -> settles_to p = Rejected e ->
     calls o = []) /\
  (forall p session, sessionPromiseRef s = Some p ->
     settles_to p = Fulfilled session ->
     calls o = [Session_sendRealtimeInput session (createBlob inputData)]).
Proof.
  cbv zeta. rewrite onaudioprocess_run. cbn [completion final calls].
  repeat split.
  - now intros ->.
  - now intros p e -> ->.
  - now intros p session -> ->.
Qed.

(** X16.  Only the lifecycle events change the connection state:
    messages, captured frames, ended units and the mute button leave
    it as it is. *)
Theorem connection_state_is_lifecycle_only (ev : Event) (s : App) :
  match ev with
  | Session_onmessage _ _ _ | Processor_onaudioprocess _
  | Source_onended _ | Click_toggleMic => True
  | _ => False
  end ->
  connectionState (final (dispatch ev s)) = connectionState s.
Proof.
  destruct ev as [env| | |scope t|scope msg env|scope msg env|scope msg env bytes| |err|inputData|id];
    cbn [dispatch]; intros H; try contradiction.
  - destruct (mediaStreamRef s) as [[[|t l]]|] eqn:E.
    + now rewrite (toggleMic_nothing s (or_intror E)).
    + now rewrite (toggleMic_run s t l E).
    + now rewrite (toggleMic_nothing s (or_introl E)).
  - now destruct (onmessage_frame scope msg env s) as (-> & _).
  - now rewrite onaudioprocess_run.
  - now rewrite onended_run.
Qed.

End MoreProperties.

(** X3.  When no step of [connectToGemini] throws, it ends in state
    [CONNECTING] having logged its three progress lines and nothing
    else, it holds the two contexts, the stream and the session
    promise it obtained, and it has made no host call; the capture
    nodes, the cursor and the active set are as before. *)
Theorem connect_success (env : ConnectEnv) (s : App) :
  first_failure env = None ->
  let o := connectToGemini env s in
  completion o = Normal tt /\ calls o = [] /\
  connectionState (final o) = CONNECTING /\
  logs (final o) = logs s ++ connect_progress /\
  (inputAudioContextRef (final o) = value_of (new_inputContext env) /\
   outputAudioContextRef (final o) = value_of (new_outputContext env) /\
   mediaStreamRef (final o) = value_of (getUserMedia env) /\
   sessionPromiseRef (final o) = value_of (live_connect env)) /\
  (inputAudioContextRef (final o) <> None /\
   outputAudioContextRef (final o) <> None /\
   mediaStreamRef (final o) <> None /\ sessionPromiseRef (final o) <> None) /\
  processorRef (final o) = processorRef s /\
  sourceNodeRef (final o) = sourceNodeRef s /\
  nextStartTimeRef (final o) = nextStartTimeRef s /\
  audioSourcesRef (final o) = audioSourcesRef s.
Proof.
  intros F. cbv zeta.
  destruct (no_failure_succeeds env F) as (ci & co & ms & p & E1 & E2 & E3 & E4 & E5).
  rewrite (connectToGemini_succeeds env s ci co ms p E1 E2 E3 E4 E5).
  rewrite E1, E2, E3, E5. cbn.
  repeat split; discriminate.
Qed.

(** X4.  Connect, open, disconnect: after a connect whose steps all
    succeed and the session's open event, a disconnect on the fulfilled
    promise ends in [DISCONNECTED] with every handle null, and its host
    calls are exactly: stop the started units, disconnect the processor
    and clear its callback, disconnect the source node, stop every
    track of the stream obtained, close the two contexts created. *)
Theorem connect_open_disconnect_releases
    (env : ConnectEnv) (s : App) ci co ms p session scope (currentTime : Z) :
  new_inputContext env = Normal ci -> new_outputContext env = Normal co ->
  getUserMedia env = Normal ms -> new_GoogleGenAI env = Normal tt ->
  live_connect env = Normal p -> settles_to p = Fulfilled session ->
  let s1 := final (connectToGemini env s) in
  let s2 := final (onopen scope currentTime s1) in
  let o := handleDisconnect s2 in
  connectionState s1 = CONNECTING /\ connectionState s2 = CONNECTED /\
  completion o = Normal tt /\
  final o =
    mkApp DISCONNECTED
      (logs s ++ connect_progress ++
       [mkLog system "Connected! Start speaking to CodeCompanion.";
        mkLog system "Disconnecting..."])
      (isMicOn s) 0%float 0%float None None None None None None currentTime [] /\
  calls o =
    stop_calls (audioSourcesRef s) ++
    [AudioNode_disconnect ProcessorNode; Processor_set_onaudioprocess false;
     AudioNode_disconnect StreamSourceNode] ++
    map Track_stop (seq 0 (List.length (getAudioTracks ms))) ++
    [AudioContext_close ci; AudioContext_close co].
Proof.
  intros E1 E2 E3 E4 E5 Hp. cbv zeta.
  rewrite (connectToGemini_succeeds env s ci co ms p E1 E2 E3 E4 E5).
  cbn [final]. rewrite onopen_run. cbn [final connectionState].
  erewrite handleDisconnect_fulfilled_run by (try reflexivity; exact Hp).
  cbn [completion final calls logs isMicOn nextStartTimeRef].
  repeat split.
  now rewrite <- !app_assoc.
Qed.

(** X5.  When the session promise is rejected, [handleDisconnect] logs
    "Disconnecting...", then the [await] throws out of the handler:
    nothing is released, no host call is made, and the connection
    state and the session handle stay as they were. *)
Theorem handleDisconnect_rejected (s : App) (p : SessionPromise) (e : JsError) :
  sessionPromiseRef s = Some p -> settles_to p = Rejected e ->
  handleDisconnect s =
  mkOutcome [] (setLogs (logs s ++ [mkLog system "Disconnecting..."]) s) (Threw e).
Proof. exact (handleDisconnect_rejected_run s p e). Qed.

(** X6.  Disconnecting twice: unless the session promise is rejected,
    a second [handleDisconnect] right after the first changes nothing,
    logs nothing and calls nothing. *)
Theorem handleDisconnect_twice (s : App) :
  (forall p e, sessionPromiseRef s = Some p -> settles_to p <> Rejected e) ->
  let s1 := final (handleDisconnect s) in
  handleDisconnect s1 = mkOutcome [] s1 (Normal tt).
Proof.
  intros H. cbv zeta. apply handleDisconnect_none_run.
  destruct (sessionPromiseRef s) as [p|] eqn:E.
  - destruct (settles_to p) as [session|e] eqn:Hp.
    + now rewrite (handleDisconnect_fulfilled_run s p session E Hp).
    + exfalso. exact (H p e eq_refl Hp).
  - now rewrite (handleDisconnect_none_run s E).
Qed.

(** X7.  Without a stream, or with a stream that has no audio track,
    the mute button does nothing: no state change, no log entry. *)
Theorem toggleMic_without_track (s : App) :
  mediaStreamRef s = None \/ mediaStreamRef s = Some (mkStream []) ->
  toggleMic s = mkOutcome [] s (Normal tt).
Proof. exact (toggleMic_nothing s). Qed.

(** X8.  Muting and unmuting: two [toggleMic] in a row leave the
    stream as it was, set the mic-on indicator to the track's flag, and
    append the two log lines in order; nothing else changes. *)
Theorem toggleMic_twice (s : App) (audioTrack : MediaStreamTrack)
    (others : list MediaStreamTrack) :
  mediaStreamRef s = Some (mkStream (audioTrack :: others)) ->
  let line (on : bool) :=
    mkLog system (if on then "Microphone unmuted." else "Microphone muted.") in
  final (toggleMic (final (toggleMic s))) =
  mkApp (connectionState s)
    (logs s ++ [line (negb (enabled audioTrack)); line (enabled audioTrack)])
    (enabled audioTrack) (volume s) (aiVolume s)
    (inputAudioContextRef s) (outputAudioContextRef s) (mediaStreamRef s)
    (processorRef s) (sourceNodeRef s) (sessionPromiseRef s)
    (nextStartTimeRef s) (audioSourcesRef s).
Proof.
  intros E. cbv zeta. rewrite (toggleMic_run s audioTrack others E). cbn [final].
  erewrite toggleMic_run by reflexivity.
  cbn [final connectionState logs isMicOn volume aiVolume inputAudioContextRef
       outputAudioContextRef mediaStreamRef processorRef sourceNodeRef
       sessionPromiseRef nextStartTimeRef audioSourcesRef enabled readyState].
  rewrite E, negb_involutive, <- app_assoc. destruct audioTrack. reflexivity.
Qed.

(** X10.  The session's error event: the state becomes [ERROR], one
    line is logged, "Error: " followed by the message or by
    "Unknown error" when the message is empty, the error goes to the
    console, and the resources are released; the session handle is
    kept. *)
Theorem onerror_releases (err : JsError) (s : App) :
  let o := onerror err s in
  completion o = Normal tt /\
  connectionState (final o) = ERROR /\
  logs (final o) =
    logs s ++
    [mkLog system
       (if String.eqb (message err) EmptyString then "Error: Unknown error"
        else "Error: " ++ message err)] /\
  calls o = console_error (message err) :: calls (cleanupAudio s) /\
  final o = setConnectionState ERROR
              (setLogs (logs (final o)) (final (cleanupAudio s))) /\
  sessionPromiseRef (final o) = sessionPromiseRef s.
Proof.
  cbv zeta. rewrite onerror_run, cleanupAudio_run.
  cbn [completion final calls connectionState logs sessionPromiseRef].
  repeat split. destruct (String.eqb (message err) EmptyString); reflexivity.
Qed.

(** X11.  The session's close event: the state becomes [DISCONNECTED],
    "Session closed." is logged and the resources are released, but
    the session handle is kept: a later [handleDisconnect] is then not
    a no-op, it logs and releases again. *)
Theorem onclose_keeps_session_handle (s : App) (p : SessionPromise) (session : Session) :
  sessionPromiseRef s = Some p -> settles_to p = Fulfilled session ->
  let o := onclose s in
  completion o = Normal tt /\
  connectionState (final o) = DISCONNECTED /\
  logs (final o) = logs s ++ [mkLog system "Session closed."] /\
  calls o = calls (cleanupAudio s) /\
  sessionPromiseRef (final o) = Some p /\
  handleDisconnect (final o) =
    mkOutcome []
      (set_sessionPromiseRef None
         (setLogs (logs s ++ [mkLog system "Session closed.";
                              mkLog system "Disconnecting..."]) (final o)))
      (Normal tt).
Proof.
  intros E Hp. cbv zeta. rewrite onclose_run, cleanupAudio_run.
  cbn [completion final calls connectionState logs sessionPromiseRef].
  repeat split; try assumption.
  erewrite handleDisconnect_fulfilled_run by (try exact Hp; exact E).
  cbn. rewrite <- app_assoc. reflexivity.
Qed.

(** X15.  [cleanupAudio] leaves the connection state, the log, the
    mic-on indicator, the session handle and the playback cursor as
    they are. *)
Theorem cleanupAudio_keeps (s : App) :
  let s' := final (cleanupAudio s) in
  connectionState s' = connectionState s /\ logs s' = logs s /\
  isMicOn s' = isMicOn s /\ sessionPromiseRef s' = sessionPromiseRef s /\
  nextStartTimeRef s' = nextStartTimeRef s.
Proof. cbv zeta. rewrite cleanupAudio_run. repeat split. Qed.

Lemma message_without_audio_is_ignored_witness :
  @onmessage spec_utils demo_scope (mkMessage (Some EmptyString) true false)
    (at_clock 5 3) two_playing
  = mkOutcome [] two_playing (Normal tt).
Proof.
  apply (@message_without_audio_is_ignored spec_utils);
    [right; reflexivity | reflexivity].
Defined.

Lemma interrupting_message_with_audio_witness :
  audioSourcesRef
    (final (@onmessage spec_utils demo_scope interrupting_audio_message
              (at_clock 120 3) two_playing)) = [] /\
  In (BufferSource_stop 3)
    (calls (@onmessage spec_utils demo_scope interrupting_audio_message
              (at_clock 120 3) two_playing)).
Proof.
  pose proof (@interrupting_message_with_audio spec_utils demo_scope
                interrupting_audio_message (at_clock 120 3) two_playing
                two_silent_samples (mkBuffer [0; 0]%float)
                eq_refl two_silent_samples_decode eq_refl two_playing_started)
    as (_ & _ & S & E & _).
  split; [exact E | exact (S eq_refl)].
Defined.

Lemma ended_after_schedule_witness :
  audioSourcesRef
    (final (onended 3
              (final (@onmessage spec_utils demo_scope audio_message
                        (at_clock 120 3) two_playing))))
  = audioSourcesRef two_playing.
Proof.
  pose proof (@ended_after_schedule spec_utils demo_scope audio_message
                (at_clock 120 3) two_playing two_silent_samples
                (mkBuffer [0; 0]%float)
                eq_refl two_silent_samples_decode eq_refl eq_refl)
    as (_ & _ & E & _).
  exact E.
Defined.

Lemma connection_state_is_lifecycle_only_witness :
  connectionState
    (final (@dispatch spec_utils
              (Session_onmessage demo_scope interruption_message (at_clock 50 3))
              two_playing)) = CONNECTED.
Proof.
  exact (@connection_state_is_lifecycle_only spec_utils
           (Session_onmessage demo_scope interruption_message (at_clock 50 3))
           two_playing I).
Defined.

Lemma connect_success_witness :
  connectionState (final (connectToGemini connect_ok initial)) = CONNECTING /\
  logs (final (connectToGemini connect_ok initial)) = connect_progress.
Proof.
  pose proof (connect_success connect_ok initial eq_refl) as (_ & _ & C & L & _).
  split; [exact C | exact L].
Defined.

Lemma connect_open_disconnect_releases_witness :
  connectionState
    (final (handleDisconnect
              (final (onopen demo_scope 3
                        (final (connectToGemini connect_ok initial))))))
  = DISCONNECTED.
Proof.
  pose proof (connect_open_disconnect_releases connect_ok initial
                (mkContext 16000) (mkContext 24000) (mkStream [mkTrack true live])
                (mkPromise (Fulfilled (mkSession 1))) (mkSession 1) demo_scope 3%Z
                eq_refl eq_refl eq_refl eq_refl eq_refl eq_refl)
    as (_ & _ & _ & E & _).
  rewrite E. reflexivity.
Defined.

Lemma handleDisconnect_rejected_witness :
  completion (handleDisconnect session_rejected) = Threw (mkError "socket closed") /\
  audioSourcesRef (final (handleDisconnect session_rejected))
    = audioSourcesRef two_playing.
Proof.
  rewrite (handleDisconnect_rejected session_rejected
             (mkPromise (Rejected (mkError "socket closed")))
             (mkError "socket closed") eq_refl eq_refl).
  split; reflexivity.
Defined.

Lemma handleDisconnect_twice_witness :
  handleDisconnect (final (handleDisconnect two_playing))
  = mkOutcome [] (final (handleDisconnect two_playing)) (Normal tt).
Proof.
  apply (handleDisconnect_twice two_playing).
  intros p e E. injection E as <-. discriminate.
Defined.

Lemma toggleMic_without_track_witness :
  toggleMic initial = mkOutcome [] initial (Normal tt).
Proof. apply (toggleMic_without_track initial). left. reflexivity. Defined.

Lemma toggleMic_twice_witness :
  mediaStreamRef (final (toggleMic (final (toggleMic two_playing))))
    = mediaStreamRef two_playing /\
  isMicOn (final (toggleMic (final (toggleMic two_playing)))) = true.
Proof.
  rewrite (toggleMic_twice two_playing (mkTrack true live) [] eq_refl).
  split; reflexivity.
Defined.

Lemma onclose_keeps_session_handle_witness :
  sessionPromiseRef (final (onclose two_playing))
    = Some (mkPromise (Fulfilled (mkSession 1))).
Proof.
  pose proof (onclose_keeps_session_handle two_playing
                (mkPromise (Fulfilled (mkSession 1))) (mkSession 1)
                eq_refl eq_refl) as (_ & _ & _ & _ & E & _).
  exact E.
Defined.

(** X17.  The mic-on indicator is not re-synchronised by a reconnect:
    after a mute toggle, a disconnect, a successful connect and the
    open event, the client is [CONNECTED] on the new stream while the
    indicator still shows the flag of the old track. *)
Theorem mute_indicator_survives_reconnect
    (s : App) (audioTrack : MediaStreamTrack) (others : list MediaStreamTrack)
    (p : SessionPromise) (session : Session)
    (env : ConnectEnv) ci co ms' p' scope (currentTime : Z) :
  mediaStreamRef s = Some (mkStream (audioTrack :: others)) ->
  sessionPromiseRef s = Some p -> settles_to p = Fulfilled session ->
  new_inputContext env = Normal ci -> new_outputContext env = Normal co ->
  getUserMedia env = Normal ms' -> new_GoogleGenAI env = Normal tt ->
  live_connect env = Normal p' ->
  let s1 := final (toggleMic s) in
  let s2 := final (handleDisconnect s1) in
  let s3 := final (connectToGemini env s2) in
  let s4 := final (onopen scope currentTime s3) in
  connectionState s4 = CONNECTED /\
  mediaStreamRef s4 = Some ms' /\
  isMicOn s4 = negb (enabled audioTrack).
Proof.
  intros Em Ep Hp E1 E2 E3 E4 E5. cbv zeta.
  rewrite (toggleMic_run s audioTrack others Em). cbn [final].
  erewrite handleDisconnect_fulfilled_run by (try exact Hp; exact Ep).
  cbn [final].
  rewrite (connectToGemini_succeeds env _ ci co ms' p' E1 E2 E3 E4 E5).
  cbn [final]. rewrite onopen_run. repeat split.
Qed.

Section LateMessage.
Context {utils : AudioUtilsImports}.

(** X18.  [onmessage] does not look at the connection state or at the
    handles: a decodable buffer that arrives after a disconnect is
    still started and put in the active set, and the state stays
    [DISCONNECTED]. *)
Theorem message_after_disconnect_is_played
    (s : App) (p : SessionPromise) (session : Session)
    scope msg env base64Audio audioBuffer :
  sessionPromiseRef s = Some p -> settles_to p = Fulfilled session ->
  truthy (inlineData_data msg) = Some base64Audio ->
  decodes_to scope base64Audio audioBuffer ->
  interrupted msg = false ->
  let s1 := final (handleDisconnect s) in
  let o := onmessage scope msg env s1 in
  let when := Z.max (nextStartTimeRef s) (currentTime_on_arrival env) in
  audioSourcesRef s1 = [] /\
  completion o = Normal tt /\
  start_times (calls o) = [(new_source_id env, when)] /\
  audioSourcesRef (final o) = [mkSource (new_source_id env) audioBuffer (Some when)] /\
  connectionState (final o) = DISCONNECTED /\
  outputAudioContextRef (final o) = None.
Proof.
  intros Ep Hp Et Hd Hi. cbv zeta.
  rewrite (handleDisconnect_fulfilled_run s p session Ep Hp). cbn [final].
  set (s1 := mkApp _ _ _ _ _ _ _ _ _ _ _ _ _).
  destruct (schedule_buffer scope msg env s1 base64Audio audioBuffer Et Hd Hi)
    as (C & S & _ & A & _).
  destruct (onmessage_frame scope msg env s1) as (Hc & _).
  split; [reflexivity|]. split; [exact C|]. split; [exact S|].
  split; [exact A|]. split; [exact Hc|].
  rewrite onmessage_run, Et, Hi.
  erewrite then_nothing by (apply play_audio_decoded; exact Hd). reflexivity.
Qed.

End LateMessage.

Lemma mute_indicator_survives_reconnect_witness :
  let s4 :=
    final (onopen demo_scope 0
      (final (connectToGemini connect_ok
        (final (handleDisconnect (final (toggleMic two_playing))))))) in
  isMicOn s4 = false /\
  mediaStreamRef s4 = Some (mkStream [mkTrack true live]).
Proof.
  pose proof (mute_indicator_survives_reconnect two_playing (mkTrack true live) []
                (mkPromise (Fulfilled (mkSession 1))) (mkSession 1) connect_ok
                (mkContext 16000) (mkContext 24000) (mkStream [mkTrack true live])
                (mkPromise (Fulfilled (mkSession 1))) demo_scope 0%Z
                eq_refl eq_refl eq_refl eq_refl eq_refl eq_refl eq_refl eq_refl)
    as (_ & M & I).
  split; [exact I | exact M].
Defined.

Lemma message_after_disconnect_is_played_witness :
  start_times
    (calls (@onmessage spec_utils demo_scope audio_message (at_clock 120 3)
              (final (handleDisconnect two_playing))))
  = [(3%nat, 120%Z)].
Proof.
  pose proof (@message_after_disconnect_is_played spec_utils two_playing
                (mkPromise (Fulfilled (mkSession 1))) (mkSession 1)
                demo_scope audio_message (at_clock 120 3)
                two_silent_samples (mkBuffer [0; 0]%float)
                eq_refl eq_refl eq_refl two_silent_samples_decode eq_refl)
    as (_ & _ & S & _).
  exact S.
Defined.

Section InterruptedDecoding.
Context {utils : AudioUtilsImports}.

(** X20.  An interruption does not reach a buffer that is being
    decoded: when the interrupting message is handled between the
    arrival of an audio message and the end of its decoding, the set
    is emptied and the cursor reset, and the resumed handler then
    starts its unit at the reset cursor and puts it in the set. *)
Theorem buffer_in_decoding_survives_interruption
    scope (s : App) msg env audio bytes audioBuffer imsg ienv :
  truthy (inlineData_data msg) = Some audio ->
  decode audio = Normal bytes ->
  decodeAudioData bytes (outputCtx scope) 24000 1 = Normal audioBuffer ->
  interrupted msg = false ->
  interrupted imsg = true ->
  all_started s ->
  let a := onmessage_arrive scope msg env s in
  let i := onmessage scope imsg ienv (final a) in
  let r := onmessage_resume scope msg env bytes (final i) in
  let clock := currentTime_on_interrupt ienv in
  (audioSourcesRef (final i) = [] /\ nextStartTimeRef (final i) = clock) /\
  completion r = Normal tt /\
  start_times (calls r) = [(new_source_id env, clock)] /\
  audioSourcesRef (final r) = [mkSource (new_source_id env) audioBuffer (Some clock)] /\
  nextStartTimeRef (final r) = (clock + duration audioBuffer)%Z.
Proof.
  intros Et Eb Ea Hi Hii Hs. cbv zeta.
  rewrite (arrive_suspends scope msg env s audio bytes Et Eb). cbn [final].
  match goal with |- context [onmessage scope imsg ienv ?s1] =>
    assert (Hs1 : all_started s1) by exact Hs;
    destruct (onmessage_interrupted scope imsg ienv s1 Hii Hs1) as (_ & A & N & _);
    pose proof (resume_schedules scope msg env bytes audioBuffer
                  (final (onmessage scope imsg ienv s1)) Ea Hi) as R
  end.
  cbv zeta in R. destruct R as (C & S & N' & A' & _).
  rewrite N in S, N', A'. rewrite A in A'.
  split; [split; assumption|]. repeat split; assumption.
Qed.

End InterruptedDecoding.

Lemma buffer_in_decoding_survives_interruption_witness :
  let a := @onmessage_arrive spec_utils demo_scope audio_message (at_clock 0 3)
             two_playing in
  let i := @onmessage spec_utils demo_scope interruption_message (at_clock 105 0)
             (final a) in
  let r := @onmessage_resume spec_utils demo_scope audio_message (at_clock 0 3)
             [0; 0; 0; 0]%Z (final i) in
  audioSourcesRef (final i) = [] /\
  start_times (calls r) = [(3%nat, 105%Z)] /\
  audioSourcesRef (final r) = [mkSource 3 (mkBuffer [0; 0]%float) (Some 105%Z)].
Proof.
  pose proof (@buffer_in_decoding_survives_interruption spec_utils demo_scope
                two_playing audio_message (at_clock 0 3) two_silent_samples
                [0; 0; 0; 0]%Z (mkBuffer [0; 0]%float)
                interruption_message (at_clock 105 0)
                eq_refl eq_refl eq_refl eq_refl eq_refl two_playing_started)
    as ((A & _) & _ & S & R & _).
  cbv zeta. split; [exact A|]. split; [exact S | exact R].
Defined.
